(** * 3D fractal triangular pyramid: the geometry generator, embedded in Rocq

    Source: [3d_model_files/3d_fractal_triangular_pyramid.py].

    The embedding is shallow.  Python floats are read as real numbers
    ([R] of the Standard Library), so every equation below is an equation
    of exact arithmetic.  The [mathutils] values the script uses
    ([Vector], [Matrix]) are modelled by records with the operations the
    script calls; the shared list [all_meshes], which the script mutates
    through [append], is threaded through the recursion as explicit
    state. *)

From Stdlib Require Import Reals Lra Lia ZArith List Bool String.
From Stdlib Require Import RNsatz DecimalString DecimalNat FinFun.
Import ListNotations.
Open Scope R_scope.

(** ** [mathutils.Vector], three components *)

Module Vector.

Record t : Type := mk { x : R; y : R; z : R }.

Definition add (u v : t) : t := mk (x u + x v) (y u + y v) (z u + z v).
Definition sub (u v : t) : t := mk (x u - x v) (y u - y v) (z u - z v).
Definition neg (v : t) : t := mk (- x v) (- y v) (- z v).
Definition div (v : t) (k : R) : t := mk (x v / k) (y v / k) (z v / k).

Definition dot (u v : t) : R := x u * x v + y u * y v + z u * z v.

Definition cross (u v : t) : t :=
  mk (y u * z v - z u * y v)
     (z u * x v - x u * z v)
     (x u * y v - y u * x v).

Definition length (v : t) : R := sqrt (dot v v).

(** [Vector.normalized()]: a null vector is returned as it is. *)
Definition normalized (v : t) : t :=
  if Req_dec_T (length v) 0 then v else div v (length v).

End Vector.

(** ** [mathutils.Matrix], 4x4, acting on column vectors *)

Module Matrix.

Record t : Type := mk {
  m00 : R; m01 : R; m02 : R; m03 : R;
  m10 : R; m11 : R; m12 : R; m13 : R;
  m20 : R; m21 : R; m22 : R; m23 : R;
  m30 : R; m31 : R; m32 : R; m33 : R }.

(** [Matrix.Identity(4)] *)
Definition Identity : t :=
  mk 1 0 0 0
     0 1 0 0
     0 0 1 0
     0 0 0 1.

(** [Matrix.Translation(v)] *)
Definition Translation (v : Vector.t) : t :=
  mk 1 0 0 (Vector.x v)
     0 1 0 (Vector.y v)
     0 0 1 (Vector.z v)
     0 0 0 1.

(** The axis-angle matrix of a unit axis [a] (Rodrigues' formula). *)
Definition axis_angle (angle : R) (a : Vector.t) : t :=
  let c := cos angle in
  let s := sin angle in
  let ic := 1 - c in
  let ax := Vector.x a in
  let ay := Vector.y a in
  let az := Vector.z a in
  mk (ax * ax * ic + c)      (ax * ay * ic - az * s) (ax * az * ic + ay * s) 0
     (ax * ay * ic + az * s) (ay * ay * ic + c)      (ay * az * ic - ax * s) 0
     (ax * az * ic - ay * s) (ay * az * ic + ax * s) (az * az * ic + c)      0
     0                       0                       0                       1.

(** [Matrix.Rotation(angle, 4, axis)]: mathutils normalises the axis
    first and answers the unit matrix for a null axis. *)
Definition Rotation (angle : R) (axis : Vector.t) : t :=
  if Req_dec_T (Vector.length axis) 0 then Identity
  else axis_angle angle (Vector.normalized axis).

(** [a @ b] *)
Definition matmul (a b : t) : t :=
  mk (m00 a * m00 b + m01 a * m10 b + m02 a * m20 b + m03 a * m30 b)
     (m00 a * m01 b + m01 a * m11 b + m02 a * m21 b + m03 a * m31 b)
     (m00 a * m02 b + m01 a * m12 b + m02 a * m22 b + m03 a * m32 b)
     (m00 a * m03 b + m01 a * m13 b + m02 a * m23 b + m03 a * m33 b)
     (m10 a * m00 b + m11 a * m10 b + m12 a * m20 b + m13 a * m30 b)
     (m10 a * m01 b + m11 a * m11 b + m12 a * m21 b + m13 a * m31 b)
     (m10 a * m02 b + m11 a * m12 b + m12 a * m22 b + m13 a * m32 b)
     (m10 a * m03 b + m11 a * m13 b + m12 a * m23 b + m13 a * m33 b)
     (m20 a * m00 b + m21 a * m10 b + m22 a * m20 b + m23 a * m30 b)
     (m20 a * m01 b + m21 a * m11 b + m22 a * m21 b + m23 a * m31 b)
     (m20 a * m02 b + m21 a * m12 b + m22 a * m22 b + m23 a * m32 b)
     (m20 a * m03 b + m21 a * m13 b + m22 a * m23 b + m23 a * m33 b)
     (m30 a * m00 b + m31 a * m10 b + m32 a * m20 b + m33 a * m30 b)
     (m30 a * m01 b + m31 a * m11 b + m32 a * m21 b + m33 a * m31 b)
     (m30 a * m02 b + m31 a * m12 b + m32 a * m22 b + m33 a * m32 b)
     (m30 a * m03 b + m31 a * m13 b + m32 a * m23 b + m33 a * m33 b).

(** [m @ v] for a 3D vector [v]: the point [(x, y, z, 1)] is multiplied
    and its first three components are kept. *)
Definition apply (m : t) (v : Vector.t) : Vector.t :=
  Vector.mk
    (m00 m * Vector.x v + m01 m * Vector.y v + m02 m * Vector.z v + m03 m)
    (m10 m * Vector.x v + m11 m * Vector.y v + m12 m * Vector.z v + m13 m)
    (m20 m * Vector.x v + m21 m * Vector.y v + m22 m * Vector.z v + m23 m).

(** The matrices the script builds are affine: their last row is
    [(0, 0, 0, 1)]. *)
Definition affine (m : t) : Prop :=
  m30 m = 0 /\ m31 m = 0 /\ m32 m = 0 /\ m33 m = 1.

End Matrix.

(** ** The mesh handed to Blender *)

(** What [create_tetra] stores through [bmesh]: the vertex coordinates
    and, for every face, the indices of its vertices. *)
Record Mesh : Type := mkMesh {
  mesh_verts : list Vector.t;
  mesh_faces : list (list nat) }.

(** [create_tetra(s)] *)
Definition create_tetra (s : R) : Mesh :=
  let points :=
    [ Vector.mk 0 0 0;
      Vector.mk s 0 0;
      Vector.mk (s / 2) ((sqrt 3 / 2) * s) 0;
      Vector.mk (s / 2) ((sqrt 3 / 6) * s) (sqrt 6 / 3 * s) ] in
  let faces :=
    [ [0; 1; 2];
      [0; 1; 3];
      [1; 2; 3];
      [2; 0; 3] ]%nat in
  mkMesh points faces.

(** ** Rotation alignment *)

(** [get_rotation_matrix_to_align(from_vec, to_vec)] *)
Definition get_rotation_matrix_to_align (from_vec to_vec : Vector.t) : Matrix.t :=
  let from_vec := Vector.normalized from_vec in
  let to_vec := Vector.normalized to_vec in
  let axis := Vector.cross from_vec to_vec in
  if Rlt_dec (Vector.length axis) 0.0001 then
    if Rgt_dec (Vector.dot from_vec to_vec) 0 then
      Matrix.Identity
    else
      let perp :=
        if Rlt_dec (Rabs (Vector.x from_vec)) 0.9
        then Vector.mk 1 0 0 else Vector.mk 0 1 0 in
      let axis := Vector.normalized (Vector.cross from_vec perp) in
      Matrix.Rotation PI axis
  else
    let axis := Vector.normalized axis in
    let angle := acos (Rmax (-1) (Rmin 1 (Vector.dot from_vec to_vec))) in
    Matrix.Rotation angle axis.

(** ** The recursor *)

(** One entry of the script's local list [faces]: the three vertices,
    the normal when it is given ([None] otherwise) and the name. *)
Definition Face : Type := (Vector.t * Vector.t * Vector.t) * option Vector.t * string.

(** One entry of [all_meshes]: [(mesh, matrix, depth)]. *)
Definition Placement : Type := Mesh * Matrix.t * Z.

Definition placement_mesh (p : Placement) : Mesh := fst (fst p).
Definition placement_matrix (p : Placement) : Matrix.t := snd (fst p).
Definition placement_depth (p : Placement) : Z := snd p.

(** The local vertices [v0 .. v3] of a call at size [s]. *)
Definition v0 (s : R) : Vector.t := Vector.mk 0 0 0.
Definition v1 (s : R) : Vector.t := Vector.mk s 0 0.
Definition v2 (s : R) : Vector.t := Vector.mk (s / 2) ((sqrt 3 / 2) * s) 0.
Definition v3 (s : R) : Vector.t := Vector.mk (s / 2) ((sqrt 3 / 6) * s) (sqrt 6 / 3 * s).

(** The local list [faces] of a call at size [s]. *)
Definition faces (s : R) : list Face :=
  [ ((v0 s, v1 s, v2 s), Some (Vector.mk 0 0 1), "base"%string);
    ((v0 s, v1 s, v3 s), None, "front"%string);
    ((v1 s, v2 s, v3 s), None, "right"%string);
    ((v2 s, v0 s, v3 s), None, "left"%string) ].

(** [enumerate] *)
Fixpoint enumerate_from {A : Type} (i : nat) (l : list A) : list (nat * A) :=
  match l with
  | [] => []
  | a :: l' => (i, a) :: enumerate_from (S i) l'
  end.

Definition enumerate {A : Type} (l : list A) : list (nat * A) := enumerate_from 0 l.

(** [centroid = (face_verts[0] + face_verts[1] + face_verts[2]) / 3] *)
Definition face_centroid (f : Face) : Vector.t :=
  let '((a, b, c), _, _) := f in
  Vector.div (Vector.add (Vector.add a b) c) 3.

(** The normal the loop works with: the given one, or else the
    normalised cross product of the two edges, negated. *)
Definition face_normal (f : Face) : Vector.t :=
  let '((a, b, c), normal, _) := f in
  match normal with
  | Some n => n
  | None =>
      let edge1 := Vector.sub b a in
      let edge2 := Vector.sub c a in
      let normal := Vector.normalized (Vector.cross edge1 edge2) in
      Vector.neg normal
  end.

Definition base_normal : Vector.t := Vector.mk 0 0 (-1).

(** [base_centroid] of a child of size [next_size]. *)
Definition base_centroid (next_size : R) : Vector.t :=
  Vector.mk (next_size / 2) ((sqrt 3 / 6) * next_size) 0.

(** The matrix [mat] the loop body builds for the child on face [f]. *)
Definition child_matrix (next_size : R) (parent_matrix : Matrix.t) (f : Face) : Matrix.t :=
  let centroid := face_centroid f in
  let normal := face_normal f in
  let mat := parent_matrix in
  let mat := Matrix.matmul mat (Matrix.Translation centroid) in
  let rotation := get_rotation_matrix_to_align base_normal normal in
  let mat := Matrix.matmul mat rotation in
  let mat := Matrix.matmul mat (Matrix.Translation (Vector.neg (base_centroid next_size))) in
  mat.

Definition Rge_bool (a b : R) : bool := if Rge_dec a b then true else false.

Section Recursor.

(** The module-level parameters the recursion reads. *)
Variable nozzle_width : R.
Variable scale_factor : R.

(** The type of [fractal_tetra_simple] when a call may still run out of
    fuel: [None] stands for a call that has not returned. *)
Definition Call : Type :=
  R -> Z -> Matrix.t -> option (list Placement) -> bool -> option (list Placement).

(** One round of the loop over [enumerate(faces)], with [rec] for the
    recursive call: [acc] is the list so far, [None] once a call has
    not returned. *)
Definition loop_step (rec : Call) (next_size : R) (depth : Z)
    (parent_matrix : Matrix.t) (skip_base : bool)
    (acc : option (list Placement)) (entry : nat * Face) : option (list Placement) :=
  let '(i, face) := entry in
  match acc with
  | None => None
  | Some l =>
      if skip_base && (i =? 0)%nat then Some l
      else rec next_size (depth - 1)%Z
               (child_matrix next_size parent_matrix face) (Some l) true
  end.

(** The body of [fractal_tetra_simple], with [rec] for the recursive
    call.  The list the script appends to in place is passed along. *)
Definition fractal_body (rec : Call) : Call :=
  fun s depth parent_matrix all_meshes skip_base =>
  let all_meshes := match all_meshes with None => [] | Some l => l end in
  if Rge_bool s nozzle_width && (depth >? 0)%Z then
    let mesh := create_tetra s in
    let all_meshes := all_meshes ++ [(mesh, parent_matrix, depth)] in
    let next_size := s * scale_factor in
    fold_left (loop_step rec next_size depth parent_matrix skip_base)
      (enumerate (faces s)) (Some all_meshes)
  else Some all_meshes.

(** [fractal_tetra_simple] run with at most [fuel] nested calls. *)
Fixpoint fractal_fuel (fuel : nat) : Call :=
  match fuel with
  | O => fun _ _ _ _ _ => None
  | S fuel' => fractal_body (fractal_fuel fuel')
  end.

(** [fractal_tetra_simple(s, depth, parent_matrix, all_meshes, skip_base)]:
    the list it returns.  [depth + 1] nested calls are enough
    ([fractal_fuel_enough] below), so the last branch is never taken. *)
Definition fractal_tetra_simple (s : R) (depth : Z) (parent_matrix : Matrix.t)
    (all_meshes : option (list Placement)) (skip_base : bool) : list Placement :=
  match fractal_fuel (S (Z.to_nat depth)) s depth parent_matrix all_meshes skip_base with
  | Some out => out
  | None => []
  end.

(** The loop of a call, once every recursive call is known to return. *)
Definition spawn (s : R) (depth : Z) (parent_matrix : Matrix.t) (skip_base : bool)
    (l : list Placement) (entry : nat * Face) : list Placement :=
  let '(i, face) := entry in
  if skip_base && (i =? 0)%nat then l
  else fractal_tetra_simple (s * scale_factor) (depth - 1)%Z
         (child_matrix (s * scale_factor) parent_matrix face) (Some l) true.

End Recursor.

(** ** The script's parameters and its top-level call *)

Definition size : R := 30.
Definition nozzle_width : R := 0.4.
Definition scale_factor : R := 0.5.
Definition recursion_depth : Z := 4.

(** [all_meshes = fractal_tetra_simple(size, recursion_depth, skip_base=True)] *)
Definition all_meshes : list Placement :=
  fractal_tetra_simple nozzle_width scale_factor size recursion_depth
    Matrix.Identity None true.

(** ** Notions the claims are stated with *)

(** The placement a call appends for itself. *)
Definition own_placement (s : R) (depth : Z) (parent_matrix : Matrix.t) : Placement :=
  (create_tetra s, parent_matrix, depth).

(** The starting list of a call: [all_meshes], or a new empty list. *)
Definition start_list (all_meshes : option (list Placement)) : list Placement :=
  match all_meshes with None => [] | Some l => l end.

(** The entries of [enumerate(faces)] the loop does not skip. *)
Definition spawned (skip_base : bool) (s : R) : list (nat * Face) :=
  filter (fun entry => negb (skip_base && (fst entry =? 0)%nat)) (enumerate (faces s)).

(** The centroid of the solid: the mean of its four vertices. *)
Definition solid_centroid (s : R) : Vector.t :=
  Vector.div (Vector.add (Vector.add (Vector.add (v0 s) (v1 s)) (v2 s)) (v3 s)) 4.

(** The three side faces, that is [faces] without the base. *)
Definition side_faces (s : R) : list Face := tl (faces s).

(** The distance between two points. *)
Definition dist (p q : Vector.t) : R := Vector.length (Vector.sub p q).

(** A configuration the specification calls valid. *)
Definition valid_config (nozzle_width scale_factor base_size : R) (depth : Z) : Prop :=
  0 < scale_factor < 1 /\ 0 <= base_size /\ 0 <= nozzle_width /\ (0 <= depth)%Z.

(** The number of nodes of a full ternary tree with [n] levels:
    [1 + 3 + ... + 3^(n-1)]. *)
Fixpoint ternary_nodes (n : nat) : nat :=
  match n with
  | O => O
  | S n' => S (3 * ternary_nodes n')
  end.

(** What the recursive call for one entry of [enumerate(faces)] adds,
    started on an empty list. *)
Definition child_call (nozzle_width scale_factor s : R) (depth : Z)
    (parent_matrix : Matrix.t) (entry : nat * Face) : list Placement :=
  fractal_tetra_simple nozzle_width scale_factor (s * scale_factor) (depth - 1)%Z
    (child_matrix (s * scale_factor) parent_matrix (snd entry)) None true.

(** What the claims say of a placement emitted under a call at size [s]
    and depth [depth]: its depth lies between 1 and [depth], and its mesh
    is the tetrahedron of the size reached after [depth - d] scalings. *)
Definition placed_under (scale_factor s : R) (depth : Z) (p : Placement) : Prop :=
  (1 <= placement_depth p <= depth)%Z /\
  placement_mesh p
  = create_tetra (s * scale_factor ^ Z.to_nat (depth - placement_depth p)).

(** The raw cross product [edge1.cross(edge2)] of a face, before it is
    normalised and negated. *)
Definition side_cross (f : Face) : Vector.t :=
  let '((a, b, c), _, _) := f in
  Vector.cross (Vector.sub b a) (Vector.sub c a).

(** The entry of [faces] named "front", at size 1. *)
Definition front_face_1 : Face := ((v0 1, v1 1, v3 1), None, "front"%string).

(** The entry of [faces] named "front", at size 30. *)
Definition front_face_30 : Face := ((v0 30, v1 30, v3 30), None, "front"%string).

(** [k * v] *)
Definition scaled (k : R) (v : Vector.t) : Vector.t :=
  Vector.mk (k * Vector.x v) (k * Vector.y v) (k * Vector.z v).

(** The height of the apex [v3] of a tetrahedron of size [s]. *)
Definition apex_height (s : R) : R := sqrt 6 / 3 * s.

(** A matrix that preserves the distance between any two points. *)
Definition isometry (m : Matrix.t) : Prop :=
  forall p q, dist (Matrix.apply m p) (Matrix.apply m q) = dist p q.

(** The entry of [faces] named "base", at size [s]. *)
Definition base_face (s : R) : Face :=
  ((v0 s, v1 s, v2 s), Some (Vector.mk 0 0 1), "base"%string).

(** The determinant of the linear part (the upper left 3x3 block) of a
    matrix: 1 for a rotation, -1 for a reflection. *)
Definition det3 (m : Matrix.t) : R :=
  Matrix.m00 m * (Matrix.m11 m * Matrix.m22 m - Matrix.m12 m * Matrix.m21 m)
  - Matrix.m01 m * (Matrix.m10 m * Matrix.m22 m - Matrix.m12 m * Matrix.m20 m)
  + Matrix.m02 m * (Matrix.m10 m * Matrix.m21 m - Matrix.m11 m * Matrix.m20 m).

(** ** The objects of the scene *)

(** [a / b] on Python integers: the quotient as a float, or [None] for
    [ZeroDivisionError]. *)
Definition int_truediv (a b : Z) : option R :=
  if (b =? 0)%Z then None else Some (IZR a / IZR b).

(** [f"{i}"] for a non-negative integer. *)
Definition str_of_nat (i : nat) : string := NilZero.string_of_uint (Nat.to_uint i).

(** What the loop sets on the material of an object. *)
Record Material : Type := mkMaterial {
  material_name : string;
  base_color : R * R * R * R;
  alpha : R;
  blend_method : string }.

(** An object of the scene: its name, its mesh, [matrix_world] and the
    materials appended to its mesh. *)
Record Object : Type := mkObject {
  object_name : string;
  object_data : Mesh;
  matrix_world : Matrix.t;
  materials : list Material }.

(** One round of the loop that creates the objects: the object built
    for entry [i] of [enumerate(all_meshes)], or [None] when a division
    raises. *)
Definition make_object (recursion_depth : Z) (entry : nat * Placement) : option Object :=
  let '(i, (mesh, matrix, depth)) := entry in
  match int_truediv depth recursion_depth with
  | None => None
  | Some r =>
      match int_truediv depth recursion_depth with
      | None => None
      | Some q =>
          let b := 1 - q in
          let mat := mkMaterial ("Material_" ++ str_of_nat i) (r, 0, b, 1) 0.5 "BLEND" in
          Some (mkObject ("Tetra_" ++ str_of_nat i) mesh matrix [mat])
      end
  end.

(** The round, on the scene so far: [None] once a round has raised. *)
Definition link_step (recursion_depth : Z) (scene : option (list Object))
    (entry : nat * Placement) : option (list Object) :=
  match scene with
  | None => None
  | Some objs =>
      match make_object recursion_depth entry with
      | None => None
      | Some o => Some (objs ++ [o])
      end
  end.

(** The loop over [enumerate(all_meshes)], started on the cleared scene. *)
Definition make_objects (recursion_depth : Z) (all_meshes : list Placement)
  : option (list Object) :=
  fold_left (link_step recursion_depth) (enumerate all_meshes) (Some []).

(** The script from the call of [fractal_tetra_simple] on, with the
    module parameters as arguments: the objects linked to the scene. *)
Definition script (nozzle_width scale_factor size : R) (recursion_depth : Z)
  : option (list Object) :=
  make_objects recursion_depth
    (fractal_tetra_simple nozzle_width scale_factor size recursion_depth
       Matrix.Identity None true).

(** Reading back a decimal numeral. *)
Definition nat_of_str (s : string) : nat :=
  match NilZero.uint_of_string s with
  | Some d => Nat.of_uint d
  | None => 0%nat
  end.

(** The object of a round in which no division raises. *)
Definition object_of (recursion_depth : Z) (entry : nat * Placement) : Object :=
  let r := IZR (placement_depth (snd entry)) / IZR recursion_depth in
  mkObject ("Tetra_" ++ str_of_nat (fst entry))
    (placement_mesh (snd entry)) (placement_matrix (snd entry))
    [mkMaterial ("Material_" ++ str_of_nat (fst entry)) (r, 0, 1 - r, 1) 0.5 "BLEND"].

(** * Facts *)

(** ** Termination and the unfolding of a call *)

Section RecursorFacts.

Variable nw : R.
Variable sf : R.

Lemma loop_returns (rec : Call) (ns : R) (d : Z) (M : Matrix.t) (skip : bool)
    (entries : list (nat * Face)) :
  (forall M' l', exists out, rec ns (d - 1)%Z M' (Some l') true = Some out) ->
  forall l, exists out, fold_left (loop_step rec ns d M skip) entries (Some l) = Some out.
Proof.
  intros Hrec. induction entries as [|[i f] entries IH]; intros l; simpl.
  - now exists l.
  - destruct (skip && (i =? 0)%nat).
    + apply IH.
    + destruct (Hrec (child_matrix ns M f) l) as [out ->]. apply IH.
Qed.

Lemma cond_depth (s : R) (depth : Z) :
  Rge_bool s nw && (depth >? 0)%Z = true -> s >= nw /\ (0 < depth)%Z.
Proof.
  intros H. apply andb_true_iff in H. destruct H as [Hs Hd].
  unfold Rge_bool in Hs. destruct (Rge_dec s nw); [|discriminate].
  split; [assumption|lia].
Qed.

Lemma cond_true (s : R) (depth : Z) :
  s >= nw -> (0 < depth)%Z -> Rge_bool s nw && (depth >? 0)%Z = true.
Proof.
  intros Hs Hd. unfold Rge_bool. destruct (Rge_dec s nw); [|contradiction].
  simpl. lia.
Qed.

Lemma cond_false (s : R) (depth : Z) :
  ~ (s >= nw /\ (0 < depth)%Z) -> Rge_bool s nw && (depth >? 0)%Z = false.
Proof.
  intros H. destruct (Rge_bool s nw && (depth >? 0)%Z) eqn:E; [|reflexivity].
  apply cond_depth in E. contradiction.
Qed.

Lemma fractal_fuel_returns (fuel : nat) :
  forall s depth M acc skip, (Z.to_nat depth < fuel)%nat ->
  exists out, fractal_fuel nw sf fuel s depth M acc skip = Some out.
Proof.
  induction fuel as [|fuel IH]; intros s depth M acc skip Hlt; [lia|].
  simpl. unfold fractal_body.
  destruct (Rge_bool s nw && (depth >? 0)%Z) eqn:E.
  - apply cond_depth in E. destruct E as [_ Hd].
    apply loop_returns. intros M' l'. apply IH. lia.
  - eexists. reflexivity.
Qed.

Lemma loop_ext (rec1 rec2 : Call) (ns : R) (d : Z) (M : Matrix.t) (skip : bool)
    (entries : list (nat * Face)) :
  (forall M' l', rec1 ns (d - 1)%Z M' l' true = rec2 ns (d - 1)%Z M' l' true) ->
  forall acc, fold_left (loop_step rec1 ns d M skip) entries acc
            = fold_left (loop_step rec2 ns d M skip) entries acc.
Proof.
  intros Hrec. induction entries as [|[i f] entries IH]; intros acc; simpl.
  - reflexivity.
  - destruct acc as [l|]; [|apply IH].
    destruct (skip && (i =? 0)%nat); [apply IH|]. rewrite Hrec. apply IH.
Qed.

Lemma fractal_fuel_stable (f1 : nat) :
  forall f2 s depth M acc skip,
  (Z.to_nat depth < f1)%nat -> (Z.to_nat depth < f2)%nat ->
  fractal_fuel nw sf f1 s depth M acc skip = fractal_fuel nw sf f2 s depth M acc skip.
Proof.
  induction f1 as [|f1 IH]; intros f2 s depth M acc skip H1 H2; [lia|].
  destruct f2 as [|f2]; [lia|].
  simpl. unfold fractal_body.
  destruct (Rge_bool s nw && (depth >? 0)%Z) eqn:E; [|reflexivity].
  apply cond_depth in E. destruct E as [_ Hd].
  apply loop_ext. intros M' l'. apply IH; lia.
Qed.

(** Any fuel above [depth] gives the list [fractal_tetra_simple] stands for. *)
Lemma fractal_fuel_enough (fuel : nat) (s : R) (depth : Z) (M : Matrix.t)
    (acc : option (list Placement)) (skip : bool) :
  (Z.to_nat depth < fuel)%nat ->
  fractal_fuel nw sf fuel s depth M acc skip
  = Some (fractal_tetra_simple nw sf s depth M acc skip).
Proof.
  intros Hlt. unfold fractal_tetra_simple.
  rewrite (fractal_fuel_stable fuel (S (Z.to_nat depth))) by lia.
  destruct (fractal_fuel_returns (S (Z.to_nat depth)) s depth M acc skip) as [out ->]; [lia|].
  reflexivity.
Qed.

Lemma loop_spawn (fuel : nat) (s : R) (depth : Z) (M : Matrix.t) (skip : bool)
    (entries : list (nat * Face)) :
  (Z.to_nat (depth - 1) < fuel)%nat ->
  forall l,
  fold_left (loop_step (fractal_fuel nw sf fuel) (s * sf) depth M skip) entries (Some l)
  = Some (fold_left (spawn nw sf s depth M skip) entries l).
Proof.
  intros Hlt. induction entries as [|[i f] entries IH]; intros l; simpl.
  - reflexivity.
  - destruct (skip && (i =? 0)%nat); [apply IH|].
    rewrite fractal_fuel_enough by assumption. apply IH.
Qed.

(** The unfolding of a call that passes the test at its entry. *)
Lemma fractal_tetra_simple_go (s : R) (depth : Z) (M : Matrix.t)
    (acc : option (list Placement)) (skip : bool) :
  s >= nw -> (0 < depth)%Z ->
  fractal_tetra_simple nw sf s depth M acc skip
  = fold_left (spawn nw sf s depth M skip) (enumerate (faces s))
      (start_list acc ++ [own_placement s depth M]).
Proof.
  intros Hs Hd. unfold fractal_tetra_simple. simpl. unfold fractal_body.
  rewrite cond_true by assumption.
  rewrite loop_spawn by lia. reflexivity.
Qed.

(** The unfolding of a call that fails the test at its entry. *)
Lemma fractal_tetra_simple_stop (s : R) (depth : Z) (M : Matrix.t)
    (acc : option (list Placement)) (skip : bool) :
  ~ (s >= nw /\ (0 < depth)%Z) ->
  fractal_tetra_simple nw sf s depth M acc skip = start_list acc.
Proof.
  intros H. unfold fractal_tetra_simple. simpl. unfold fractal_body.
  rewrite cond_false by assumption. reflexivity.
Qed.

End RecursorFacts.

(** ** What a call emits *)

Section Emitted.

Variable nw : R.
Variable sf : R.

Lemma spawn_fold_app (s : R) (depth : Z) (M : Matrix.t) (skip : bool)
    (entries : list (nat * Face)) :
  (forall M' l, fractal_tetra_simple nw sf (s * sf) (depth - 1)%Z M' (Some l) true
                = l ++ fractal_tetra_simple nw sf (s * sf) (depth - 1)%Z M' None true) ->
  forall l,
  fold_left (spawn nw sf s depth M skip) entries l
  = l ++ flat_map (child_call nw sf s depth M)
          (filter (fun entry => negb (skip && (fst entry =? 0)%nat)) entries).
Proof.
  intros Hrec. induction entries as [|[i f] entries IH]; intros l; simpl.
  - now rewrite app_nil_r.
  - destruct (skip && (i =? 0)%nat); simpl.
    + apply IH.
    + rewrite IH, Hrec. unfold child_call. simpl. now rewrite app_assoc.
Qed.

(** The list a call returns is the list it was given, followed by what
    the same call emits on an empty list. *)
Lemma fractal_tetra_simple_acc (n : nat) :
  forall s depth M acc skip, (Z.to_nat depth <= n)%nat ->
  fractal_tetra_simple nw sf s depth M acc skip
  = start_list acc ++ fractal_tetra_simple nw sf s depth M None skip.
Proof.
  induction n as [|n IH]; intros s depth M acc skip Hn.
  - rewrite !fractal_tetra_simple_stop by lia. simpl. now rewrite app_nil_r.
  - destruct (Rge_dec s nw) as [Hs|Hs].
    2:{ rewrite !fractal_tetra_simple_stop by tauto. simpl. now rewrite app_nil_r. }
    destruct (Z_lt_dec 0 depth) as [Hd|Hd].
    2:{ rewrite !fractal_tetra_simple_stop by tauto. simpl. now rewrite app_nil_r. }
    rewrite !fractal_tetra_simple_go by assumption.
    assert (Hrec : forall M' l,
      fractal_tetra_simple nw sf (s * sf) (depth - 1)%Z M' (Some l) true
      = l ++ fractal_tetra_simple nw sf (s * sf) (depth - 1)%Z M' None true).
    { intros M' l. apply (IH _ _ _ (Some l)). lia. }
    rewrite !(spawn_fold_app _ _ _ _ _ Hrec). simpl.
    now rewrite <- !app_assoc.
Qed.

(** A call that passes its test appends its own placement and then,
    face after face, what the calls on the faces it does not skip emit. *)
Lemma fractal_tetra_simple_emits (s : R) (depth : Z) (M : Matrix.t)
    (acc : option (list Placement)) (skip : bool) :
  s >= nw -> (0 < depth)%Z ->
  fractal_tetra_simple nw sf s depth M acc skip
  = start_list acc ++ own_placement s depth M
      :: flat_map (child_call nw sf s depth M) (spawned skip s).
Proof.
  intros Hs Hd. rewrite fractal_tetra_simple_go by assumption.
  rewrite spawn_fold_app.
  - unfold spawned. now rewrite <- app_assoc.
  - intros M' l.
    apply (fractal_tetra_simple_acc (Z.to_nat (depth - 1)) _ _ _ (Some l)). lia.
Qed.

(** The first placement a call emits on an empty list is its own. *)
Lemma emitted_head (s : R) (depth : Z) (M : Matrix.t) (skip : bool) (p : Placement) :
  hd_error (fractal_tetra_simple nw sf s depth M None skip) = Some p ->
  p = own_placement s depth M.
Proof.
  intros Hp.
  destruct (Rge_dec s nw) as [Hs|Hs].
  2:{ rewrite fractal_tetra_simple_stop in Hp by tauto. discriminate. }
  destruct (Z_lt_dec 0 depth) as [Hd|Hd].
  2:{ rewrite fractal_tetra_simple_stop in Hp by tauto. discriminate. }
  rewrite fractal_tetra_simple_emits in Hp by assumption.
  simpl in Hp. now injection Hp as <-.
Qed.

Lemma spawned_true (s : R) : spawned true s = enumerate_from 1 (side_faces s).
Proof. reflexivity. Qed.

Lemma spawned_false (s : R) : spawned false s = enumerate (faces s).
Proof. reflexivity. Qed.

End Emitted.

(** ** Depths, sizes and number of the placements *)

Section Placements.

Variable nw : R.
Variable sf : R.

Lemma placed_under_child (s : R) (depth : Z) (p : Placement) :
  placed_under sf (s * sf) (depth - 1) p -> placed_under sf s depth p.
Proof.
  unfold placed_under. intros [Hd Hm]. split; [lia|].
  rewrite Hm.
  replace (Z.to_nat (depth - placement_depth p))
    with (S (Z.to_nat (depth - 1 - placement_depth p))) by lia.
  simpl. f_equal. ring.
Qed.

Lemma emitted_placed_under (n : nat) :
  forall s depth M skip, (Z.to_nat depth <= n)%nat ->
  Forall (placed_under sf s depth) (fractal_tetra_simple nw sf s depth M None skip).
Proof.
  induction n as [|n IH]; intros s depth M skip Hn.
  - rewrite fractal_tetra_simple_stop by lia. constructor.
  - destruct (Rge_dec s nw) as [Hs|Hs].
    2:{ rewrite fractal_tetra_simple_stop by tauto. constructor. }
    destruct (Z_lt_dec 0 depth) as [Hd|Hd].
    2:{ rewrite fractal_tetra_simple_stop by tauto. constructor. }
    rewrite fractal_tetra_simple_emits by assumption. simpl.
    constructor.
    + unfold placed_under, own_placement, placement_depth, placement_mesh. simpl.
      split; [lia|]. rewrite Z.sub_diag. simpl. f_equal. ring.
    + apply Forall_forall. intros p Hp. apply in_flat_map in Hp.
      destruct Hp as [entry [_ Hp]]. apply placed_under_child.
      unfold child_call in Hp.
      assert (H := IH (s * sf) (depth - 1)%Z
                     (child_matrix (s * sf) M (snd entry)) true).
      rewrite Forall_forall in H. apply H; [lia|assumption].
Qed.

Lemma flat_map_length_le {A B : Type} (f : A -> list B) (l : list A) (k : nat) :
  (forall a, In a l -> (List.length (f a) <= k)%nat) ->
  (List.length (flat_map f l) <= List.length l * k)%nat.
Proof.
  induction l as [|a l IH]; intros H; simpl; [lia|].
  rewrite length_app.
  assert (List.length (f a) <= k)%nat by (apply H; now left).
  assert (List.length (flat_map f l) <= List.length l * k)%nat
    by (apply IH; intros b Hb; apply H; now right).
  lia.
Qed.

Lemma flat_map_length_eq {A B : Type} (f : A -> list B) (l : list A) (k : nat) :
  (forall a, In a l -> List.length (f a) = k) ->
  List.length (flat_map f l) = (List.length l * k)%nat.
Proof.
  induction l as [|a l IH]; intros H; simpl; [lia|].
  rewrite length_app, (H a) by now left.
  rewrite IH by (intros b Hb; apply H; now right). lia.
Qed.

(** With the base skipped a call emits at most a full ternary tree. *)
Lemma emitted_bound (n : nat) :
  forall s depth M, (Z.to_nat depth <= n)%nat ->
  (List.length (fractal_tetra_simple nw sf s depth M None true) <= ternary_nodes n)%nat.
Proof.
  induction n as [|n IH]; intros s depth M Hn.
  - rewrite fractal_tetra_simple_stop by lia. simpl. lia.
  - destruct (Rge_dec s nw) as [Hs|Hs].
    2:{ rewrite fractal_tetra_simple_stop by tauto. simpl. lia. }
    destruct (Z_lt_dec 0 depth) as [Hd|Hd].
    2:{ rewrite fractal_tetra_simple_stop by tauto. simpl. lia. }
    rewrite fractal_tetra_simple_emits by assumption.
    cbn [start_list app List.length ternary_nodes].
    pose proof (flat_map_length_le (child_call nw sf s depth M) (spawned true s)
                  (ternary_nodes n)) as H.
    rewrite spawned_true in *. cbn [List.length side_faces faces tl enumerate_from] in H.
    cbn [side_faces faces tl enumerate_from].
    assert (forall a, List.length (child_call nw sf s depth M a) <= ternary_nodes n)%nat
      by (intros a; apply IH; lia).
    specialize (H (fun a _ => H0 a)). lia.
Qed.

(** It emits exactly a full ternary tree when the sizes of all [n]
    levels reach [nozzle_width]. *)
Lemma emitted_full (n : nat) :
  forall s M, (forall k, (k < n)%nat -> s * sf ^ k >= nw) ->
  List.length (fractal_tetra_simple nw sf s (Z.of_nat n) M None true) = ternary_nodes n.
Proof.
  induction n as [|n IH]; intros s M Hk.
  - rewrite fractal_tetra_simple_stop by (simpl; lia). reflexivity.
  - assert (Hs : s >= nw).
    { specialize (Hk 0%nat). simpl in Hk. rewrite Rmult_1_r in Hk. apply Hk. lia. }
    rewrite fractal_tetra_simple_emits by (assumption || lia).
    cbn [start_list app List.length ternary_nodes].
    rewrite (flat_map_length_eq _ _ (ternary_nodes n)).
    + rewrite spawned_true. reflexivity.
    + intros a _. unfold child_call.
      replace (Z.of_nat (S n) - 1)%Z with (Z.of_nat n) by lia.
      apply IH. intros k Hlt. specialize (Hk (S k)). simpl in Hk.
      rewrite Rmult_assoc. apply Hk. lia.
Qed.

End Placements.

(** ** The canonical tetrahedron *)

Lemma sqrt3_sq : sqrt 3 * sqrt 3 = 3.
Proof. apply sqrt_sqrt. lra. Qed.

Lemma sqrt6_sq : sqrt 6 * sqrt 6 = 6.
Proof. apply sqrt_sqrt. lra. Qed.

Lemma sqrt3_pos : 0 < sqrt 3.
Proof. apply sqrt_lt_R0. lra. Qed.

Lemma sqrt6_pos : 0 < sqrt 6.
Proof. apply sqrt_lt_R0. lra. Qed.

Lemma length_of_square (v : Vector.t) (k : R) :
  0 <= k -> Vector.dot v v = k * k -> Vector.length v = k.
Proof.
  intros Hk Hv. unfold Vector.length. rewrite Hv. now apply sqrt_square.
Qed.

Lemma tetra_edges (s : R) :
  0 <= s ->
  dist (v0 s) (v1 s) = s /\ dist (v0 s) (v2 s) = s /\ dist (v0 s) (v3 s) = s /\
  dist (v1 s) (v2 s) = s /\ dist (v1 s) (v3 s) = s /\ dist (v2 s) (v3 s) = s.
Proof.
  intros Hs.
  assert (E3 : s * s * (sqrt 3 * sqrt 3) = s * s * 3) by (rewrite sqrt3_sq; ring).
  assert (E6 : s * s * (sqrt 6 * sqrt 6) = s * s * 6) by (rewrite sqrt6_sq; ring).
  repeat split.
  all: unfold dist; apply length_of_square; [lra|].
  all: unfold Vector.dot, Vector.sub, v0, v1, v2, v3; simpl; lra.
Qed.

(** ** The normals of the side faces *)

Lemma length_nonneg (v : Vector.t) : 0 <= Vector.length v.
Proof. apply sqrt_pos. Qed.

Lemma dot_self_nonneg (v : Vector.t) : 0 <= Vector.dot v v.
Proof. unfold Vector.dot. nra. Qed.

Lemma dot_self_zero (v : Vector.t) :
  Vector.dot v v = 0 -> v = Vector.mk 0 0 0.
Proof.
  destruct v as [a b c]. unfold Vector.dot. simpl. intros H.
  assert (Ha : a * a = 0) by nra.
  assert (Hb : b * b = 0) by nra.
  assert (Hc : c * c = 0) by nra.
  apply Rsqr_0_uniq in Ha, Hb, Hc. now subst.
Qed.

Lemma length_zero (v : Vector.t) :
  Vector.length v = 0 -> v = Vector.mk 0 0 0.
Proof.
  unfold Vector.length. intros H. apply dot_self_zero.
  apply sqrt_eq_0; [apply dot_self_nonneg|assumption].
Qed.

Lemma length_pos_of_dot (c d : Vector.t) :
  Vector.dot c d <> 0 -> 0 < Vector.length c.
Proof.
  intros H. destruct (length_nonneg c) as [Hlt|Heq]; [assumption|].
  exfalso. apply H. symmetry in Heq. apply length_zero in Heq. subst c.
  unfold Vector.dot. simpl. ring.
Qed.

Lemma dot_neg_normalized (c d : Vector.t) :
  0 < Vector.length c ->
  Vector.dot (Vector.neg (Vector.normalized c)) d
  = - (Vector.dot c d / Vector.length c).
Proof.
  intros H. unfold Vector.normalized.
  destruct (Req_dec_T (Vector.length c) 0) as [E|E]; [lra|].
  unfold Vector.dot, Vector.neg, Vector.div. simpl. field. assumption.
Qed.

Lemma side_cross_outward (s : R) (f : Face) :
  In f (side_faces s) ->
  Vector.dot (side_cross f) (Vector.sub (face_centroid f) (solid_centroid s))
  = sqrt 3 * sqrt 6 * (s * s * s) / 24.
Proof.
  intros Hf. simpl in Hf.
  destruct Hf as [<-|[<-|[<-|[]]]].
  all: unfold side_cross, face_centroid, solid_centroid, v0, v1, v2, v3.
  all: unfold Vector.dot, Vector.cross, Vector.sub, Vector.add, Vector.div; simpl.
  all: field.
Qed.

Lemma side_face_normal (s : R) (f : Face) :
  In f (side_faces s) ->
  face_normal f = Vector.neg (Vector.normalized (side_cross f)).
Proof.
  intros Hf. simpl in Hf. destruct Hf as [<-|[<-|[<-|[]]]]; reflexivity.
Qed.

Lemma outward_measure_pos (s : R) : 0 < s -> 0 < sqrt 3 * sqrt 6 * (s * s * s) / 24.
Proof.
  intros Hs. pose proof sqrt3_pos as H3. pose proof sqrt6_pos as H6.
  assert (0 < sqrt 3 * sqrt 6) by now apply Rmult_lt_0_compat.
  assert (0 < s * s) by now apply Rmult_lt_0_compat.
  assert (0 < s * s * s) by now apply Rmult_lt_0_compat.
  assert (0 < sqrt 3 * sqrt 6 * (s * s * s)) by now apply Rmult_lt_0_compat.
  lra.
Qed.

(** The normal of a side face, as the loop computes it, has a negative
    dot product with the direction from the centroid of the solid to the
    centroid of the face. *)
Lemma side_normal_dot (s : R) (f : Face) :
  0 < s -> In f (side_faces s) ->
  Vector.dot (face_normal f) (Vector.sub (face_centroid f) (solid_centroid s)) < 0.
Proof.
  intros Hs Hf.
  pose proof (side_cross_outward s f Hf) as Hdot.
  pose proof (outward_measure_pos s Hs) as Hpos.
  assert (Hlen : 0 < Vector.length (side_cross f)).
  { apply (length_pos_of_dot _ (Vector.sub (face_centroid f) (solid_centroid s))). lra. }
  rewrite (side_face_normal s f Hf), dot_neg_normalized by assumption.
  rewrite Hdot.
  assert (0 < sqrt 3 * sqrt 6 * (s * s * s) / 24 / Vector.length (side_cross f))
    by now apply Rdiv_lt_0_compat.
  lra.
Qed.

(** ** Affine matrices and the child transform *)

Lemma apply_matmul (a b : Matrix.t) (v : Vector.t) :
  Matrix.affine b ->
  Matrix.apply (Matrix.matmul a b) v = Matrix.apply a (Matrix.apply b v).
Proof.
  intros (H0 & H1 & H2 & H3). destruct a, b. simpl in *. subst.
  unfold Matrix.apply, Matrix.matmul. simpl. f_equal; ring.
Qed.

Lemma affine_matmul (a b : Matrix.t) :
  Matrix.affine a -> Matrix.affine b -> Matrix.affine (Matrix.matmul a b).
Proof.
  intros (A0 & A1 & A2 & A3) (B0 & B1 & B2 & B3).
  destruct a, b. simpl in *. subst. unfold Matrix.affine. simpl.
  repeat split; ring.
Qed.

Lemma affine_Identity : Matrix.affine Matrix.Identity.
Proof. unfold Matrix.affine. simpl. auto. Qed.

Lemma affine_Translation (v : Vector.t) : Matrix.affine (Matrix.Translation v).
Proof. unfold Matrix.affine. simpl. auto. Qed.

Lemma affine_Rotation (angle : R) (axis : Vector.t) :
  Matrix.affine (Matrix.Rotation angle axis).
Proof.
  unfold Matrix.Rotation. destruct (Req_dec_T (Vector.length axis) 0).
  - apply affine_Identity.
  - unfold Matrix.affine. simpl. auto.
Qed.

Lemma affine_align (from_vec to_vec : Vector.t) :
  Matrix.affine (get_rotation_matrix_to_align from_vec to_vec).
Proof.
  unfold get_rotation_matrix_to_align.
  repeat match goal with |- context [if ?c then _ else _] => destruct c end;
    auto using affine_Identity, affine_Rotation.
Qed.

(** A rotation matrix fixes the origin. *)
Lemma Rotation_origin (angle : R) (axis : Vector.t) :
  Matrix.apply (Matrix.Rotation angle axis) (Vector.mk 0 0 0) = Vector.mk 0 0 0.
Proof.
  unfold Matrix.Rotation. destruct (Req_dec_T (Vector.length axis) 0);
    unfold Matrix.apply; simpl; f_equal; ring.
Qed.

Lemma align_origin (from_vec to_vec : Vector.t) :
  Matrix.apply (get_rotation_matrix_to_align from_vec to_vec) (Vector.mk 0 0 0)
  = Vector.mk 0 0 0.
Proof.
  unfold get_rotation_matrix_to_align.
  repeat match goal with |- context [if ?c then _ else _] => destruct c end.
  all: try apply Rotation_origin.
  unfold Matrix.apply; simpl; f_equal; ring.
Qed.

Lemma Translation_apply (t v : Vector.t) :
  Matrix.apply (Matrix.Translation t) v = Vector.add v t.
Proof.
  unfold Matrix.apply, Vector.add. simpl. f_equal; ring.
Qed.

(** The child matrix sends the base centroid of the child to the place
    the parent matrix sends the centroid of the face. *)
Lemma child_matrix_centroid (next_size : R) (parent_matrix : Matrix.t) (f : Face) :
  Matrix.apply (child_matrix next_size parent_matrix f) (base_centroid next_size)
  = Matrix.apply parent_matrix (face_centroid f).
Proof.
  unfold child_matrix.
  rewrite !apply_matmul
    by auto using affine_Translation, affine_align, affine_matmul.
  rewrite !Translation_apply.
  replace (Vector.add (base_centroid next_size) (Vector.neg (base_centroid next_size)))
    with (Vector.mk 0 0 0)
    by (unfold Vector.add, Vector.neg; simpl; f_equal; ring).
  rewrite align_origin.
  f_equal. destruct (face_centroid f). unfold Vector.add. simpl. f_equal; ring.
Qed.

(** ** Aligning a direction with itself and with its opposite *)

Lemma cross_self (v : Vector.t) : Vector.cross v v = Vector.mk 0 0 0.
Proof. unfold Vector.cross. f_equal; ring. Qed.

Lemma cross_neg_self (v : Vector.t) : Vector.cross v (Vector.neg v) = Vector.mk 0 0 0.
Proof. unfold Vector.cross, Vector.neg. simpl. f_equal; ring. Qed.

Lemma length_null : Vector.length (Vector.mk 0 0 0) = 0.
Proof.
  unfold Vector.length, Vector.dot. simpl.
  replace (0 * 0 + 0 * 0 + 0 * 0) with 0 by ring. apply sqrt_0.
Qed.

Lemma length_nonnull (v : Vector.t) : v <> Vector.mk 0 0 0 -> 0 < Vector.length v.
Proof.
  intros Hv. destruct (length_nonneg v) as [H|H]; [assumption|].
  symmetry in H. apply length_zero in H. contradiction.
Qed.

Lemma length_sq (v : Vector.t) : Vector.length v * Vector.length v = Vector.dot v v.
Proof. unfold Vector.length. apply sqrt_sqrt, dot_self_nonneg. Qed.

Lemma normalized_unit (v : Vector.t) :
  v <> Vector.mk 0 0 0 ->
  Vector.dot (Vector.normalized v) (Vector.normalized v) = 1.
Proof.
  intros Hv. pose proof (length_nonnull v Hv) as Hl.
  pose proof (length_sq v) as Hsq.
  unfold Vector.normalized.
  destruct (Req_dec_T (Vector.length v) 0) as [E|E]; [lra|].
  unfold Vector.dot, Vector.div in *. simpl.
  replace (Vector.x v / Vector.length v * (Vector.x v / Vector.length v) +
           Vector.y v / Vector.length v * (Vector.y v / Vector.length v) +
           Vector.z v / Vector.length v * (Vector.z v / Vector.length v))
    with ((Vector.x v * Vector.x v + Vector.y v * Vector.y v + Vector.z v * Vector.z v)
          / (Vector.length v * Vector.length v)) by (field; assumption).
  rewrite Hsq. field. rewrite <- Hsq. nra.
Qed.

Lemma length_unit (v : Vector.t) : Vector.dot v v = 1 -> Vector.length v = 1.
Proof. intros H. unfold Vector.length. rewrite H. apply sqrt_1. Qed.

Lemma normalized_of_unit (v : Vector.t) : Vector.dot v v = 1 -> Vector.normalized v = v.
Proof.
  intros H. unfold Vector.normalized. rewrite (length_unit v H).
  destruct (Req_dec_T 1 0); [reflexivity|].
  destruct v. unfold Vector.div. simpl. f_equal; field.
Qed.

Lemma length_neg (v : Vector.t) : Vector.length (Vector.neg v) = Vector.length v.
Proof.
  unfold Vector.length. f_equal. unfold Vector.dot, Vector.neg. simpl. ring.
Qed.

Lemma normalized_neg (v : Vector.t) :
  Vector.normalized (Vector.neg v) = Vector.neg (Vector.normalized v).
Proof.
  unfold Vector.normalized. rewrite length_neg.
  destruct (Req_dec_T (Vector.length v) 0); [reflexivity|].
  unfold Vector.neg, Vector.div. simpl. f_equal; field; assumption.
Qed.

Lemma Matrix_ext (a b : Matrix.t) :
  Matrix.m00 a = Matrix.m00 b -> Matrix.m01 a = Matrix.m01 b ->
  Matrix.m02 a = Matrix.m02 b -> Matrix.m03 a = Matrix.m03 b ->
  Matrix.m10 a = Matrix.m10 b -> Matrix.m11 a = Matrix.m11 b ->
  Matrix.m12 a = Matrix.m12 b -> Matrix.m13 a = Matrix.m13 b ->
  Matrix.m20 a = Matrix.m20 b -> Matrix.m21 a = Matrix.m21 b ->
  Matrix.m22 a = Matrix.m22 b -> Matrix.m23 a = Matrix.m23 b ->
  Matrix.m30 a = Matrix.m30 b -> Matrix.m31 a = Matrix.m31 b ->
  Matrix.m32 a = Matrix.m32 b -> Matrix.m33 a = Matrix.m33 b ->
  a = b.
Proof.
  destruct a, b. simpl. intros. subst. reflexivity.
Qed.

(** A turn of [PI] about a unit axis, composed with itself, is the identity. *)
Lemma half_turn_square (a : Vector.t) :
  Vector.dot a a = 1 ->
  Matrix.matmul (Matrix.axis_angle PI a) (Matrix.axis_angle PI a) = Matrix.Identity.
Proof.
  destruct a as [ax ay az]. unfold Vector.dot. simpl. intros H.
  assert (Hxx : ax * ax * (ax * ax + ay * ay + az * az) = ax * ax) by (rewrite H; ring).
  assert (Hxy : ax * ay * (ax * ax + ay * ay + az * az) = ax * ay) by (rewrite H; ring).
  assert (Hxz : ax * az * (ax * ax + ay * ay + az * az) = ax * az) by (rewrite H; ring).
  assert (Hyy : ay * ay * (ax * ax + ay * ay + az * az) = ay * ay) by (rewrite H; ring).
  assert (Hyz : ay * az * (ax * ax + ay * ay + az * az) = ay * az) by (rewrite H; ring).
  assert (Hzz : az * az * (ax * ax + ay * ay + az * az) = az * az) by (rewrite H; ring).
  apply Matrix_ext; unfold Matrix.axis_angle, Matrix.matmul, Matrix.Identity;
    cbn [Matrix.m00 Matrix.m01 Matrix.m02 Matrix.m03 Matrix.m10 Matrix.m11
         Matrix.m12 Matrix.m13 Matrix.m20 Matrix.m21 Matrix.m22 Matrix.m23
         Matrix.m30 Matrix.m31 Matrix.m32 Matrix.m33 Vector.x Vector.y Vector.z];
    rewrite ?cos_PI, ?sin_PI; lra.
Qed.

(** The axis the anti-parallel branch picks is not null. *)
Lemma perp_cross_nonnull (n : Vector.t) :
  Vector.dot n n = 1 ->
  Vector.cross n (if Rlt_dec (Rabs (Vector.x n)) 0.9
                  then Vector.mk 1 0 0 else Vector.mk 0 1 0)
  <> Vector.mk 0 0 0.
Proof.
  destruct n as [nx ny nz]. unfold Vector.dot. simpl. intros H.
  destruct (Rlt_dec (Rabs nx) 0.9) as [Hx|Hx]; unfold Vector.cross; simpl; intros E.
  - injection E as _ Ez Ey.
    assert (nz = 0) by lra. assert (ny = 0) by lra. subst.
    assert (Hsq : nx * nx = 1) by lra.
    destruct (Rcase_abs nx) as [Hneg|Hpos].
    + rewrite (Rabs_left nx Hneg) in Hx. nra.
    + rewrite (Rabs_right nx Hpos) in Hx. nra.
  - injection E as Ez _ Ex.
    assert (nx = 0) by lra. subst. rewrite Rabs_R0 in Hx. lra.
Qed.

Lemma dot_cross_left (u v : Vector.t) : Vector.dot (Vector.cross u v) u = 0.
Proof. unfold Vector.dot, Vector.cross. simpl. ring. Qed.

Lemma dot_normalized_left (c n : Vector.t) :
  Vector.dot c n = 0 -> Vector.dot (Vector.normalized c) n = 0.
Proof.
  intros H. unfold Vector.normalized.
  destruct (Req_dec_T (Vector.length c) 0) as [E|E]; [assumption|].
  unfold Vector.dot, Vector.div in *. simpl.
  replace (Vector.x c / Vector.length c * Vector.x n +
           Vector.y c / Vector.length c * Vector.y n +
           Vector.z c / Vector.length c * Vector.z n)
    with ((Vector.x c * Vector.x n + Vector.y c * Vector.y n + Vector.z c * Vector.z n)
          / Vector.length c) by (field; assumption).
  rewrite H. field. assumption.
Qed.

Lemma align_self (v : Vector.t) :
  v <> Vector.mk 0 0 0 -> get_rotation_matrix_to_align v v = Matrix.Identity.
Proof.
  intros Hv. unfold get_rotation_matrix_to_align.
  rewrite cross_self, length_null, (normalized_unit v Hv).
  destruct (Rlt_dec 0 0.0001) as [_|H]; [|lra].
  destruct (Rgt_dec 1 0) as [_|H]; [reflexivity|lra].
Qed.

Lemma align_opposite (v : Vector.t) :
  v <> Vector.mk 0 0 0 ->
  exists a,
    Vector.dot a a = 1 /\ Vector.dot a (Vector.normalized v) = 0 /\
    get_rotation_matrix_to_align v (Vector.neg v) = Matrix.axis_angle PI a.
Proof.
  intros Hv. pose proof (normalized_unit v Hv) as Hn.
  unfold get_rotation_matrix_to_align.
  rewrite normalized_neg, cross_neg_self, length_null.
  destruct (Rlt_dec 0 0.0001) as [_|H]; [|lra].
  replace (Vector.dot (Vector.normalized v) (Vector.neg (Vector.normalized v)))
    with (- Vector.dot (Vector.normalized v) (Vector.normalized v))
    by (unfold Vector.dot, Vector.neg; simpl; ring).
  rewrite Hn. destruct (Rgt_dec (- (1)) 0) as [H|_]; [lra|].
  pose proof (perp_cross_nonnull _ Hn) as Hc.
  set (c := Vector.cross (Vector.normalized v) _) in *.
  pose proof (normalized_unit c Hc) as Ha.
  exists (Vector.normalized c). split; [assumption|]. split.
  - apply dot_normalized_left. apply dot_cross_left.
  - unfold Matrix.Rotation. rewrite (length_unit _ Ha).
    destruct (Req_dec_T 1 0) as [H|_]; [lra|].
    now rewrite (normalized_of_unit _ Ha).
Qed.

(** ** Where a child is placed *)

Lemma Vector_ext (u v : Vector.t) :
  Vector.x u = Vector.x v -> Vector.y u = Vector.y v -> Vector.z u = Vector.z v ->
  u = v.
Proof. destruct u, v. simpl. intros. subst. reflexivity. Qed.

(** Lagrange's identity for unit vectors. *)
Lemma cross_sq_unit (f t : Vector.t) :
  Vector.dot f f = 1 -> Vector.dot t t = 1 ->
  Vector.dot (Vector.cross f t) (Vector.cross f t)
  = 1 - Vector.dot f t * Vector.dot f t.
Proof.
  intros Hf Ht.
  transitivity (Vector.dot f f * Vector.dot t t - Vector.dot f t * Vector.dot f t).
  - unfold Vector.dot, Vector.cross. simpl. ring.
  - rewrite Hf, Ht. ring.
Qed.

(** Away from the parallel and anti-parallel cases, the matrix of
    [get_rotation_matrix_to_align] turns the unit vector [f] onto the
    unit vector [t]. *)
Lemma align_turns (f t : Vector.t) :
  Vector.dot f f = 1 -> Vector.dot t t = 1 ->
  0.0001 <= Vector.length (Vector.cross f t) ->
  Matrix.apply (get_rotation_matrix_to_align f t) f = t.
Proof.
  intros Hf Ht Hlen.
  pose proof (cross_sq_unit f t Hf Ht) as Hsq.
  pose proof (dot_self_nonneg (Vector.cross f t)) as Hnn.
  unfold get_rotation_matrix_to_align.
  rewrite (normalized_of_unit f Hf), (normalized_of_unit t Ht).
  destruct (Rlt_dec (Vector.length (Vector.cross f t)) 0.0001) as [H|_]; [lra|].
  set (A := Vector.cross f t) in *.
  set (d := Vector.dot f t) in *.
  set (L := Vector.length A) in *.
  assert (HL : L * L = 1 - d * d) by (unfold L; rewrite length_sq; exact Hsq).
  assert (Hd : -1 <= d <= 1) by nra.
  assert (Hclamp : Rmax (-1) (Rmin 1 d) = d).
  { rewrite Rmin_right by lra. apply Rmax_right. lra. }
  rewrite Hclamp.
  assert (HA : A <> Vector.mk 0 0 0).
  { intros E. unfold L in Hlen. rewrite E, length_null in Hlen. lra. }
  pose proof (normalized_unit A HA) as Ha.
  unfold Matrix.Rotation. rewrite (length_unit _ Ha).
  destruct (Req_dec_T 1 0) as [H|_]; [lra|].
  rewrite (normalized_of_unit _ Ha).
  assert (Hsin : sin (acos d) = L).
  { rewrite sin_acos by assumption. unfold Rsqr. rewrite <- HL.
    apply sqrt_square. unfold L. apply length_nonneg. }
  assert (Hperp : Vector.dot (Vector.normalized A) f = 0)
    by (apply dot_normalized_left, dot_cross_left).
  assert (HLa : Vector.normalized A = Vector.div A L).
  { unfold Vector.normalized. fold L. destruct (Req_dec_T L 0); [lra|reflexivity]. }
  assert (Hx : L * Vector.x (Vector.normalized A) = Vector.x A)
    by (rewrite HLa; simpl; field; lra).
  assert (Hy : L * Vector.y (Vector.normalized A) = Vector.y A)
    by (rewrite HLa; simpl; field; lra).
  assert (Hz : L * Vector.z (Vector.normalized A) = Vector.z A)
    by (rewrite HLa; simpl; field; lra).
  assert (EA : A = Vector.cross f t) by reflexivity.
  assert (Ed : d = Vector.dot f t) by reflexivity.
  clearbody A d L.
  destruct (Vector.normalized A) as [ax ay az].
  destruct f as [fx fy fz], t as [tx ty tz], A as [Ax Ay Az].
  unfold Vector.dot, Vector.cross in *. simpl in *.
  injection EA as EAx EAy EAz.
  unfold Matrix.axis_angle, Matrix.apply.
  cbn [Matrix.m00 Matrix.m01 Matrix.m02 Matrix.m03 Matrix.m10 Matrix.m11
       Matrix.m12 Matrix.m13 Matrix.m20 Matrix.m21 Matrix.m22 Matrix.m23
       Vector.x Vector.y Vector.z].
  rewrite cos_acos, Hsin by assumption.
  assert (Px : ax * (ax * fx + ay * fy + az * fz) = 0) by (rewrite Hperp; ring).
  assert (Py : ay * (ax * fx + ay * fy + az * fz) = 0) by (rewrite Hperp; ring).
  assert (Pz : az * (ax * fx + ay * fy + az * fz) = 0) by (rewrite Hperp; ring).
  assert (Qx : d * (ax * (ax * fx + ay * fy + az * fz)) = 0) by (rewrite Hperp; ring).
  assert (Qy : d * (ay * (ax * fx + ay * fy + az * fz)) = 0) by (rewrite Hperp; ring).
  assert (Qz : d * (az * (ax * fx + ay * fy + az * fz)) = 0) by (rewrite Hperp; ring).
  assert (Cx : (L * ay) * fz - (L * az) * fy = Ay * fz - Az * fy) by (rewrite Hy, Hz; ring).
  assert (Cy : (L * az) * fx - (L * ax) * fz = Az * fx - Ax * fz) by (rewrite Hz, Hx; ring).
  assert (Cz : (L * ax) * fy - (L * ay) * fx = Ax * fy - Ay * fx) by (rewrite Hx, Hy; ring).
  assert (Tx : tx * (fx * fx + fy * fy + fz * fz) = tx) by (rewrite Hf; ring).
  assert (Ty : ty * (fx * fx + fy * fy + fz * fz) = ty) by (rewrite Hf; ring).
  assert (Tz : tz * (fx * fx + fy * fy + fz * fz) = tz) by (rewrite Hf; ring).
  assert (Dx : d * fx = (fx * tx + fy * ty + fz * tz) * fx) by (rewrite Ed; ring).
  assert (Dy : d * fy = (fx * tx + fy * ty + fz * tz) * fy) by (rewrite Ed; ring).
  assert (Dz : d * fz = (fx * tx + fy * ty + fz * tz) * fz) by (rewrite Ed; ring).
  clear Hx Hy Hz Hperp Hf Ht Hsq Hnn Hlen HL Hd Hclamp HA Ha Hsin HLa Ed.
  subst Ax Ay Az.
  apply Vector_ext; cbn [Vector.x Vector.y Vector.z]; lra.
Qed.

Lemma side_cross_sq (s : R) (f : Face) :
  In f (side_faces s) ->
  Vector.dot (side_cross f) (side_cross f) = 3 / 4 * (s * s * s * s) /\
  Vector.z (side_cross f) * Vector.z (side_cross f) = s * s * s * s / 12.
Proof.
  intros Hf.
  assert (E3 : s * s * s * s * (sqrt 3 * sqrt 3) = s * s * s * s * 3)
    by (rewrite sqrt3_sq; ring).
  assert (E6 : s * s * s * s * (sqrt 6 * sqrt 6) = s * s * s * s * 6)
    by (rewrite sqrt6_sq; ring).
  assert (E18 : s * s * s * s * (sqrt 3 * sqrt 3) * (sqrt 6 * sqrt 6) = s * s * s * s * 18)
    by (rewrite sqrt3_sq, sqrt6_sq; ring).
  simpl in Hf. destruct Hf as [<-|[<-|[<-|[]]]].
  all: unfold side_cross, v0, v1, v2, v3.
  all: unfold Vector.dot, Vector.cross, Vector.sub; simpl.
  all: split; lra.
Qed.

Lemma side_normal_unit (s : R) (f : Face) :
  0 < s -> In f (side_faces s) ->
  Vector.dot (face_normal f) (face_normal f) = 1 /\
  Vector.z (face_normal f) * Vector.z (face_normal f) = 1 / 9.
Proof.
  intros Hs Hf. destruct (side_cross_sq s f Hf) as [Hcc Hzz].
  rewrite (side_face_normal s f Hf).
  assert (Hs4 : 0 < s * s * s * s).
  { assert (0 < s * s) by now apply Rmult_lt_0_compat.
    assert (0 < s * s * s) by now apply Rmult_lt_0_compat.
    now apply Rmult_lt_0_compat. }
  assert (Hc : side_cross f <> Vector.mk 0 0 0).
  { intros E. rewrite E in Hcc. unfold Vector.dot in Hcc. simpl in Hcc. lra. }
  pose proof (normalized_unit _ Hc) as Hu.
  pose proof (length_nonnull _ Hc) as HL.
  pose proof (length_sq (side_cross f)) as HLL.
  split.
  - rewrite <- Hu. unfold Vector.dot, Vector.neg. simpl. ring.
  - unfold Vector.normalized.
    destruct (Req_dec_T (Vector.length (side_cross f)) 0) as [E|E]; [lra|].
    unfold Vector.neg, Vector.div. simpl.
    replace (- (Vector.z (side_cross f) / Vector.length (side_cross f)) *
             - (Vector.z (side_cross f) / Vector.length (side_cross f)))
      with (Vector.z (side_cross f) * Vector.z (side_cross f)
            / (Vector.length (side_cross f) * Vector.length (side_cross f)))
      by (field; assumption).
    rewrite HLL, Hcc, Hzz. field. lra.
Qed.

Lemma base_normal_unit : Vector.dot base_normal base_normal = 1.
Proof. unfold Vector.dot, base_normal. simpl. ring. Qed.

(** On a side face the loop takes the general branch of the alignment,
    and the matrix turns [base_normal] onto the normal of the face. *)
Lemma align_base_normal (s : R) (f : Face) :
  0 < s -> In f (side_faces s) ->
  Matrix.apply (get_rotation_matrix_to_align base_normal (face_normal f)) base_normal
  = face_normal f.
Proof.
  intros Hs Hf. destruct (side_normal_unit s f Hs Hf) as [Hu Hz].
  apply align_turns; [apply base_normal_unit|assumption|].
  pose proof (cross_sq_unit _ _ base_normal_unit Hu) as Hsq.
  rewrite <- length_sq in Hsq.
  pose proof (length_nonneg (Vector.cross base_normal (face_normal f))) as Hnn.
  replace (Vector.dot base_normal (face_normal f)) with (- Vector.z (face_normal f)) in Hsq
    by (unfold Vector.dot, base_normal; simpl; ring).
  nra.
Qed.

Lemma Rotation_scaled (angle : R) (axis : Vector.t) (k : R) (v : Vector.t) :
  Matrix.apply (Matrix.Rotation angle axis) (scaled k v)
  = scaled k (Matrix.apply (Matrix.Rotation angle axis) v).
Proof.
  unfold Matrix.Rotation. destruct (Req_dec_T (Vector.length axis) 0);
    apply Vector_ext; unfold Matrix.apply, scaled; simpl; ring.
Qed.

Lemma align_scaled (from_vec to_vec : Vector.t) (k : R) (v : Vector.t) :
  Matrix.apply (get_rotation_matrix_to_align from_vec to_vec) (scaled k v)
  = scaled k (Matrix.apply (get_rotation_matrix_to_align from_vec to_vec) v).
Proof.
  unfold get_rotation_matrix_to_align.
  repeat match goal with |- context [if ?c then _ else _] => destruct c end.
  all: try apply Rotation_scaled.
  apply Vector_ext; unfold Matrix.apply, scaled; simpl; ring.
Qed.

(** In the frame of the parent, the apex of the child on a side face is
    the centroid of the face moved by the height of the child against
    the normal of the face. *)
Lemma child_apex (s next_size : R) (f : Face) :
  0 < s -> In f (side_faces s) ->
  Matrix.apply (child_matrix next_size Matrix.Identity f) (v3 next_size)
  = Vector.add (scaled (- apex_height next_size) (face_normal f)) (face_centroid f).
Proof.
  intros Hs Hf. unfold child_matrix.
  rewrite !apply_matmul
    by auto using affine_Translation, affine_align, affine_matmul.
  rewrite !Translation_apply.
  replace (Vector.add (v3 next_size) (Vector.neg (base_centroid next_size)))
    with (scaled (- apex_height next_size) base_normal)
    by (apply Vector_ext; unfold scaled, apex_height, base_normal, v3, base_centroid,
          Vector.add, Vector.neg; simpl; ring).
  rewrite align_scaled, (align_base_normal s f Hs Hf).
  apply Vector_ext; unfold Matrix.apply; simpl; ring.
Qed.

(** The child on a side face grows away from the parent: from the
    centroid of the face, its apex lies in the direction that leads away
    from the centroid of the parent. *)
Theorem child_apex_beyond_face (s next_size : R) (f : Face) :
  0 < s -> 0 < next_size -> In f (side_faces s) ->
  0 < Vector.dot
        (Vector.sub
           (Matrix.apply (child_matrix next_size Matrix.Identity f) (v3 next_size))
           (face_centroid f))
        (Vector.sub (face_centroid f) (solid_centroid s)).
Proof.
  intros Hs Hn Hf. rewrite (child_apex s next_size f Hs Hf).
  pose proof (side_normal_dot s f Hs Hf) as Hdot.
  set (w := Vector.sub (face_centroid f) (solid_centroid s)) in *.
  replace (Vector.dot
             (Vector.sub
                (Vector.add (scaled (- apex_height next_size) (face_normal f))
                   (face_centroid f))
                (face_centroid f)) w)
    with (- apex_height next_size * Vector.dot (face_normal f) w)
    by (unfold Vector.dot, Vector.sub, Vector.add, scaled; simpl; ring).
  assert (0 < apex_height next_size).
  { unfold apex_height. pose proof sqrt6_pos. 
    apply Rmult_lt_0_compat; lra. }
  nra.
Qed.

(** * The claims *)

(** ** C1: the normals of the faces *)

(** What the loop computes on the side faces.  For every edge length
    [s > 0] and each of the three side faces, the normalised cross product
    of the edges, negated once, has a negative dot product with
    [faceCentroid - solidCentroid]: it points towards the interior of the
    solid, against the comment "Flip normal to point outward".  The normal
    of the base face is the fixed direction (0,0,1). *)
Lemma side_normals_point_inward (s : R) :
  0 < s ->
  (forall f, In f (side_faces s) ->
     Vector.dot (face_normal f)
       (Vector.sub (face_centroid f) (solid_centroid s)) < 0) /\
  (forall f, nth_error (faces s) 0 = Some f -> face_normal f = Vector.mk 0 0 1).
Proof.
  intros Hs. split.
  - intros f Hf. now apply side_normal_dot.
  - intros f Hf. simpl in Hf. injection Hf as <-. reflexivity.
Qed.

Lemma front_face_1_side : In front_face_1 (side_faces 1).
Proof. simpl. left. reflexivity. Qed.

Lemma front_face_1_cross_length : Vector.length (side_cross front_face_1) = sqrt 3 / 2.
Proof.
  pose proof sqrt3_pos as H3.
  destruct (side_cross_sq 1 front_face_1 front_face_1_side) as [Hcc _].
  apply length_of_square; [lra|].
  rewrite Hcc. pose proof sqrt3_sq as Hsq. lra.
Qed.

(** C1: the code at the failing input.  At [s = 1], for the side face
    "front" (vertices v0, v1, v3), the normal the loop computes has the dot
    product [- sqrt 6 / 12] (about -0.204) with
    [faceCentroid - solidCentroid]: it is negative, where the claim, and
    the comment of the code, want the normal to point outward. *)
Theorem C1_front_face_normal_points_inward :
  In front_face_1 (side_faces 1) /\
  Vector.dot (face_normal front_face_1)
    (Vector.sub (face_centroid front_face_1) (solid_centroid 1))
  = - (sqrt 6 / 12) /\
  ~ Vector.dot (face_normal front_face_1)
      (Vector.sub (face_centroid front_face_1) (solid_centroid 1)) > 0.
Proof.
  pose proof sqrt3_pos as H3. pose proof sqrt6_pos as H6.
  assert (Hval :
    Vector.dot (face_normal front_face_1)
      (Vector.sub (face_centroid front_face_1) (solid_centroid 1))
    = - (sqrt 6 / 12)).
  { rewrite (side_face_normal 1 front_face_1 front_face_1_side).
    rewrite dot_neg_normalized by (rewrite front_face_1_cross_length; lra).
    rewrite (side_cross_outward 1 front_face_1 front_face_1_side).
    rewrite front_face_1_cross_length. field. lra. }
  split; [exact front_face_1_side|]. split; [exact Hval|].
  rewrite Hval. lra.
Qed.

(** ** C2: the child transform *)

(** C2.  For every call and every face on which a child is spawned, the
    matrix handed to the recursive call (the parent matrix, then the
    translation to the face centroid, then the alignment rotation, then
    the translation by the negated base centroid of the child) maps the
    analytic base centroid of the child to the point the parent matrix
    maps the face centroid to; it is the matrix of the placement the
    child emits for itself. *)
Theorem C2_child_base_centroid_on_face_centroid
    (nw sf s : R) (depth : Z) (M : Matrix.t) (skip : bool) (entry : nat * Face) :
  In entry (spawned skip s) ->
  child_call nw sf s depth M entry
  = fractal_tetra_simple nw sf (s * sf) (depth - 1)%Z
      (child_matrix (s * sf) M (snd entry)) None true /\
  Matrix.apply (child_matrix (s * sf) M (snd entry)) (base_centroid (s * sf))
  = Matrix.apply M (face_centroid (snd entry)) /\
  (forall p, hd_error (child_call nw sf s depth M entry) = Some p ->
     Matrix.apply (placement_matrix p) (base_centroid (s * sf))
     = Matrix.apply M (face_centroid (snd entry))).
Proof.
  intros _. split; [reflexivity|]. split; [apply child_matrix_centroid|].
  intros p Hp. unfold child_call in Hp. apply emitted_head in Hp. subst p.
  unfold own_placement, placement_matrix. simpl. apply child_matrix_centroid.
Qed.

Lemma C2_witness :
  Matrix.apply (child_matrix (30 * 0.5) Matrix.Identity front_face_30)
    (base_centroid (30 * 0.5))
  = Matrix.apply Matrix.Identity (face_centroid front_face_30).
Proof.
  apply (C2_child_base_centroid_on_face_centroid 0.4 0.5 30 4 Matrix.Identity true
           (1%nat, front_face_30)).
  simpl. left. reflexivity.
Defined.

(** ** C3: what one call emits *)

(** C3.  A call with [size >= nozzleWidth] and [depth > 0] appends exactly
    one placement of its own (the primitive of the current size, the
    accumulated matrix, the current depth) and then only what its
    recursive calls emit; any other call returns the list unchanged.
    Every placement a call adds has a depth between 1 and the depth of
    that call, and the first one added carries that depth itself. *)
Theorem C3_call_emits_one_record_or_nothing
    (nw sf s : R) (depth : Z) (M : Matrix.t)
    (acc : option (list Placement)) (skip : bool) :
  (s >= nw /\ (0 < depth)%Z ->
     fractal_tetra_simple nw sf s depth M acc skip
     = start_list acc ++ (create_tetra s, M, depth)
         :: flat_map (child_call nw sf s depth M) (spawned skip s)) /\
  (~ (s >= nw /\ (0 < depth)%Z) ->
     fractal_tetra_simple nw sf s depth M acc skip = start_list acc) /\
  (exists added,
     fractal_tetra_simple nw sf s depth M acc skip = start_list acc ++ added /\
     Forall (fun p => (1 <= placement_depth p <= depth)%Z) added /\
     (forall p, hd_error added = Some p -> p = (create_tetra s, M, depth))).
Proof.
  split; [|split].
  - intros [Hs Hd]. now apply fractal_tetra_simple_emits.
  - apply fractal_tetra_simple_stop.
  - exists (fractal_tetra_simple nw sf s depth M None skip). split; [|split].
    + apply (fractal_tetra_simple_acc nw sf (Z.to_nat depth)). lia.
    + pose proof (emitted_placed_under nw sf (Z.to_nat depth) s depth M skip
                    (Nat.le_refl _)) as H.
      eapply Forall_impl; [|exact H]. intros p [Hp _]. exact Hp.
    + intros p Hp. now apply (emitted_head nw sf s depth M skip).
Qed.

Lemma children_at_depth_zero (nw sf s : R) (M : Matrix.t) (entries : list (nat * Face)) :
  flat_map (child_call nw sf s 1 M) entries = [].
Proof.
  induction entries as [|e entries IH]; simpl; [reflexivity|].
  rewrite IH. unfold child_call.
  rewrite fractal_tetra_simple_stop by (simpl; lia). reflexivity.
Qed.

Lemma C3_witness :
  fractal_tetra_simple 0.4 0.5 30 1 Matrix.Identity None true
  = [(create_tetra 30, Matrix.Identity, 1%Z)].
Proof.
  destruct (C3_call_emits_one_record_or_nothing 0.4 0.5 30 1 Matrix.Identity None true)
    as [Hgo _].
  rewrite Hgo by (split; [lra|lia]).
  now rewrite children_at_depth_zero.
Defined.

(** ** C4: the primitive *)

(** C4.  For every edge length [s > 0], [create_tetra] stores the four
    vertices (0,0,0), (s,0,0), (s/2, (sqrt 3/2)s, 0),
    (s/2, (sqrt 3/6)s, (sqrt 6/3)s) and the four faces (0,1,2), (0,1,3),
    (1,2,3), (2,0,3), and any two distinct vertices are at distance [s]. *)
Theorem C4_create_tetra_regular (s : R) :
  0 < s ->
  mesh_verts (create_tetra s)
  = [ Vector.mk 0 0 0; Vector.mk s 0 0;
      Vector.mk (s / 2) ((sqrt 3 / 2) * s) 0;
      Vector.mk (s / 2) ((sqrt 3 / 6) * s) (sqrt 6 / 3 * s) ] /\
  mesh_faces (create_tetra s) = [ [0; 1; 2]; [0; 1; 3]; [1; 2; 3]; [2; 0; 3] ]%nat /\
  (forall i j p q, (i < j < 4)%nat ->
     nth_error (mesh_verts (create_tetra s)) i = Some p ->
     nth_error (mesh_verts (create_tetra s)) j = Some q ->
     dist p q = s).
Proof.
  intros Hs. split; [reflexivity|]. split; [reflexivity|].
  destruct (tetra_edges s (Rlt_le _ _ Hs)) as (E01 & E02 & E03 & E12 & E13 & E23).
  intros i j p q Hij Hp Hq.
  assert (Hcases : ((i = 0 /\ j = 1) \/ (i = 0 /\ j = 2) \/ (i = 0 /\ j = 3) \/
                    (i = 1 /\ j = 2) \/ (i = 1 /\ j = 3) \/ (i = 2 /\ j = 3))%nat) by lia.
  destruct Hcases as [[-> ->]|[[-> ->]|[[-> ->]|[[-> ->]|[[-> ->]|[-> ->]]]]]];
    simpl in Hp, Hq; injection Hp as <-; injection Hq as <-; assumption.
Qed.

Lemma C4_witness :
  0 < 1 /\ dist (Vector.mk 0 0 0) (Vector.mk (1 / 2) ((sqrt 3 / 6) * 1) (sqrt 6 / 3 * 1)) = 1.
Proof.
  split; [lra|].
  destruct (C4_create_tetra_regular 1 ltac:(lra)) as (_ & _ & H).
  apply (H 0%nat 3%nat); [lia|reflexivity|reflexivity].
Defined.

(** ** C5: invalid configurations *)

(** C5 as stated fails.  With [scaleFactor = 2], which is not in (0,1),
    the top-level call at size 1, depth 1 and nozzle width 0.4 returns a
    list holding a placement; and [create_tetra(-1)] builds a mesh. *)
Lemma C5_counterexample :
  ~ valid_config 0.4 2 1 1 /\
  fractal_tetra_simple 0.4 2 1 1 Matrix.Identity None true
  = [(create_tetra 1, Matrix.Identity, 1%Z)] /\
  create_tetra (-1)
  = mkMesh [ Vector.mk 0 0 0; Vector.mk (-1) 0 0;
             Vector.mk (-1 / 2) ((sqrt 3 / 2) * -1) 0;
             Vector.mk (-1 / 2) ((sqrt 3 / 6) * -1) (sqrt 6 / 3 * -1) ]
           [ [0; 1; 2]; [0; 1; 3]; [1; 2; 3]; [2; 0; 3] ]%nat.
Proof.
  split; [|split].
  - unfold valid_config. lra.
  - rewrite fractal_tetra_simple_emits by (lra || lia).
    now rewrite children_at_depth_zero.
  - reflexivity.
Qed.

(** C5, as amended.  No configuration is rejected: whatever
    [nozzleWidth], [scaleFactor], [baseSize] and [recursionDepth] are, the
    top-level call returns a list, and that list holds a placement exactly
    when [baseSize >= nozzleWidth] and [recursionDepth > 0]; and
    [create_tetra] builds its four vertices and four faces for every edge
    length, zero and negative ones included. *)
Theorem C5_no_configuration_is_rejected (nw sf base : R) (depth : Z) :
  (forall fuel, (Z.to_nat depth < fuel)%nat ->
     fractal_fuel nw sf fuel base depth Matrix.Identity None true
     = Some (fractal_tetra_simple nw sf base depth Matrix.Identity None true)) /\
  (fractal_tetra_simple nw sf base depth Matrix.Identity None true <> []
   <-> base >= nw /\ (0 < depth)%Z) /\
  (forall s, List.length (mesh_verts (create_tetra s)) = 4%nat /\
             List.length (mesh_faces (create_tetra s)) = 4%nat).
Proof.
  split; [|split].
  - intros fuel Hf. now apply fractal_fuel_enough.
  - split.
    + intros Hne. destruct (Rge_dec base nw) as [Hs|Hs].
      2:{ exfalso. apply Hne. apply fractal_tetra_simple_stop. tauto. }
      destruct (Z_lt_dec 0 depth) as [Hd|Hd]; [tauto|].
      exfalso. apply Hne. apply fractal_tetra_simple_stop. tauto.
    + intros [Hs Hd]. rewrite fractal_tetra_simple_emits by assumption.
      simpl. discriminate.
  - intros s. split; reflexivity.
Qed.

Lemma C5_witness :
  fractal_tetra_simple 0.4 2 1 (-1) Matrix.Identity None true = [].
Proof.
  destruct (C5_no_configuration_is_rejected 0.4 2 1 (-1)) as (_ & [Hne _] & _).
  destruct (fractal_tetra_simple 0.4 2 1 (-1) Matrix.Identity None true) as [|p l] eqn:E;
    [reflexivity|].
  exfalso. assert (H : p :: l <> []) by discriminate.
  apply Hne in H. lia.
Defined.

(** ** C6: the number of placements of the script *)

Lemma script_sizes (k : nat) : (k < 4)%nat -> size * scale_factor ^ k >= nozzle_width.
Proof.
  intros Hk. unfold size, scale_factor, nozzle_width.
  destruct k as [|[|[|[|k]]]]; simpl; try lra. lia.
Qed.

(** C6.  The top-level call with [size = 30], [recursion_depth = 4],
    [scale_factor = 0.5] and [nozzle_width = 0.4] returns a fixed number
    of placements, at most [1 + 3 + 9 + 27 = 40]; the number is 40. *)
Theorem C6_script_emits_at_most_40 :
  (0 <= List.length all_meshes <= 1 + 3 + 9 + 27)%nat /\
  List.length all_meshes = 40%nat.
Proof.
  assert (H : List.length all_meshes = 40%nat).
  { unfold all_meshes. change recursion_depth with (Z.of_nat 4).
    rewrite emitted_full by apply script_sizes. reflexivity. }
  split; [|exact H]. rewrite H. simpl. lia.
Qed.

(** ** C7: aligning a direction with itself and with its opposite *)

(** C7.  For every vector [v] other than the null vector,
    [get_rotation_matrix_to_align(v, v)] is the identity, and
    [get_rotation_matrix_to_align(v, -v)] is the turn of [PI] about a unit
    axis perpendicular to [v]; composed with itself it is the identity. *)
Theorem C7_align_self_and_opposite (v : Vector.t) :
  v <> Vector.mk 0 0 0 ->
  get_rotation_matrix_to_align v v = Matrix.Identity /\
  (exists a, Vector.dot a a = 1 /\ Vector.dot a (Vector.normalized v) = 0 /\
     get_rotation_matrix_to_align v (Vector.neg v) = Matrix.axis_angle PI a) /\
  Matrix.matmul (get_rotation_matrix_to_align v (Vector.neg v))
                (get_rotation_matrix_to_align v (Vector.neg v))
  = Matrix.Identity.
Proof.
  intros Hv. split; [now apply align_self|].
  destruct (align_opposite v Hv) as (a & Ha & Hperp & Heq).
  split.
  - exists a. auto.
  - rewrite Heq. now apply half_turn_square.
Qed.

Lemma base_normal_nonnull : base_normal <> Vector.mk 0 0 0.
Proof.
  unfold base_normal. intros E.
  assert (H : Vector.z (Vector.mk 0 0 (-1)) = Vector.z (Vector.mk 0 0 0)) by now rewrite E.
  simpl in H. lra.
Qed.

Lemma C7_witness :
  base_normal <> Vector.mk 0 0 0 /\
  get_rotation_matrix_to_align base_normal base_normal = Matrix.Identity.
Proof.
  split; [exact base_normal_nonnull|].
  apply (C7_align_self_and_opposite base_normal). exact base_normal_nonnull.
Defined.

(** ** C8: the base face is skipped *)

(** C8.  The top-level call of the script passes [skip_base = True].
    Under that flag a call that passes its test appends its own placement
    and recurses on the faces of index 1, 2 and 3 only, never on the base
    face of index 0; every recursive call is again made with
    [skip_base = True]. *)
Theorem C8_base_face_never_spawns
    (nw sf s : R) (depth : Z) (M : Matrix.t) (acc : option (list Placement)) :
  all_meshes
  = fractal_tetra_simple nozzle_width scale_factor size recursion_depth
      Matrix.Identity None true /\
  (s >= nw /\ (0 < depth)%Z ->
     fractal_tetra_simple nw sf s depth M acc true
     = start_list acc ++ (create_tetra s, M, depth)
         :: flat_map
              (fun entry =>
                 fractal_tetra_simple nw sf (s * sf) (depth - 1)%Z
                   (child_matrix (s * sf) M (snd entry)) None true)
              (spawned true s)) /\
  (List.length (spawned true s) <= 3)%nat /\
  (forall entry, In entry (spawned true s) -> fst entry <> 0%nat) /\
  map fst (spawned true s) = [1; 2; 3]%nat.
Proof.
  split; [reflexivity|]. split; [|split; [|split]].
  - intros [Hs Hd]. now apply fractal_tetra_simple_emits.
  - rewrite spawned_true. simpl. lia.
  - intros entry H. rewrite spawned_true in H. simpl in H.
    destruct H as [<-|[<-|[<-|[]]]]; simpl; lia.
  - reflexivity.
Qed.

Lemma C8_witness :
  fractal_tetra_simple 0.4 0.5 30 1 Matrix.Identity None true
  = (create_tetra 30, Matrix.Identity, 1%Z)
      :: flat_map
           (fun entry =>
              fractal_tetra_simple 0.4 0.5 (30 * 0.5) (1 - 1)%Z
                (child_matrix (30 * 0.5) Matrix.Identity (snd entry)) None true)
           (spawned true 30).
Proof.
  destruct (C8_base_face_never_spawns 0.4 0.5 30 1 Matrix.Identity None)
    as (_ & Hgo & _).
  apply Hgo. split; [lra|lia].
Defined.

(** ** C9: termination *)

Lemma spawn_fold_calls (nw sf s : R) (depth : Z) (M : Matrix.t) (skip : bool)
    (entries : list (nat * Face)) :
  forall l,
  fold_left (spawn nw sf s depth M skip) entries l
  = fold_left
      (fun l entry =>
         if skip && (fst entry =? 0)%nat then l
         else fractal_tetra_simple nw sf (s * sf) (depth - 1)%Z
                (child_matrix (s * sf) M (snd entry)) (Some l) true)
      entries l.
Proof.
  induction entries as [|[i f] entries IH]; intros l; simpl.
  - reflexivity.
  - apply IH.
Qed.

(** C9.  For every size, depth, matrix, list and flag, the call returns:
    run with any bound on the nesting of calls above [depth], the
    recursion gives the list [fractal_tetra_simple] stands for.  The
    recursive calls of a call that passes its test are made at size
    [s * scale_factor] and depth [depth - 1], one after the other on the
    list the call before has returned. *)
Theorem C9_recursion_terminates
    (nw sf s : R) (depth : Z) (M : Matrix.t)
    (acc : option (list Placement)) (skip : bool) (fuel : nat) :
  (Z.to_nat depth < fuel)%nat ->
  fractal_fuel nw sf fuel s depth M acc skip
  = Some (fractal_tetra_simple nw sf s depth M acc skip) /\
  (s >= nw /\ (0 < depth)%Z ->
     fractal_tetra_simple nw sf s depth M acc skip
     = fold_left
         (fun l entry =>
            if skip && (fst entry =? 0)%nat then l
            else fractal_tetra_simple nw sf (s * sf) (depth - 1)%Z
                   (child_matrix (s * sf) M (snd entry)) (Some l) true)
         (enumerate (faces s))
         (start_list acc ++ [(create_tetra s, M, depth)])).
Proof.
  intros Hf. split; [now apply fractal_fuel_enough|].
  intros [Hs Hd]. rewrite fractal_tetra_simple_go by assumption.
  apply spawn_fold_calls.
Qed.

Lemma C9_witness :
  fractal_fuel 0.4 0.5 5 30 4%Z Matrix.Identity None true
  = Some (fractal_tetra_simple 0.4 0.5 30 4%Z Matrix.Identity None true).
Proof.
  apply (C9_recursion_terminates 0.4 0.5 30 4%Z Matrix.Identity None true 5).
  simpl. lia.
Defined.

(** ** C10: the geometry of a placement is fixed by its depth *)

(** C10.  In the list the top-level call returns, a placement emitted
    with depth [d] holds the primitive of edge length
    [baseSize * scaleFactor ^ (recursionDepth - d)]; so two placements of
    the list with the same depth hold the same primitive. *)
Theorem C10_geometry_determined_by_depth
    (nw sf base : R) (depth : Z) (p : Placement) :
  In p (fractal_tetra_simple nw sf base depth Matrix.Identity None true) ->
  (1 <= placement_depth p <= depth)%Z /\
  placement_mesh p
  = create_tetra (base * sf ^ Z.to_nat (depth - placement_depth p)) /\
  (forall q,
     In q (fractal_tetra_simple nw sf base depth Matrix.Identity None true) ->
     placement_depth q = placement_depth p ->
     placement_mesh q = placement_mesh p).
Proof.
  intros Hp.
  pose proof (emitted_placed_under nw sf (Z.to_nat depth) base depth
                Matrix.Identity true (Nat.le_refl _)) as H.
  rewrite Forall_forall in H.
  destruct (H p Hp) as [Hd Hm]. split; [assumption|]. split; [assumption|].
  intros q Hq Hdq. destruct (H q Hq) as [_ Hmq].
  rewrite Hmq, Hm, Hdq. reflexivity.
Qed.

Lemma C10_witness :
  placement_mesh (create_tetra size, Matrix.Identity, recursion_depth)
  = create_tetra (size * scale_factor ^ Z.to_nat (recursion_depth - recursion_depth)).
Proof.
  apply (C10_geometry_determined_by_depth nozzle_width scale_factor size
           recursion_depth (create_tetra size, Matrix.Identity, recursion_depth)).
  rewrite fractal_tetra_simple_emits.
  - simpl. left. reflexivity.
  - unfold size, nozzle_width. lra.
  - unfold recursion_depth. lia.
Defined.

(** * Further facts *)

(** ** The alignment is a rotation *)

Lemma normalized_idem (v : Vector.t) :
  Vector.normalized (Vector.normalized v) = Vector.normalized v.
Proof.
  destruct (Req_dec_T (Vector.length v) 0) as [E|E].
  - unfold Vector.normalized at 2. destruct (Req_dec_T (Vector.length v) 0); [|contradiction].
    unfold Vector.normalized. destruct (Req_dec_T (Vector.length v) 0); [reflexivity|contradiction].
  - apply normalized_of_unit, normalized_unit. intros Hv. apply E. rewrite Hv. apply length_null.
Qed.

Lemma align_normalized (from_vec to_vec : Vector.t) :
  get_rotation_matrix_to_align from_vec to_vec
  = get_rotation_matrix_to_align (Vector.normalized from_vec) (Vector.normalized to_vec).
Proof.
  unfold get_rotation_matrix_to_align. now rewrite !normalized_idem.
Qed.

Lemma axis_angle_dot (angle : R) (a u v : Vector.t) :
  Vector.dot a a = 1 ->
  Vector.dot (Matrix.apply (Matrix.axis_angle angle a) u)
             (Matrix.apply (Matrix.axis_angle angle a) v) = Vector.dot u v.
Proof.
  intros Ha. pose proof (sin2_cos2 angle) as Hcs. unfold Rsqr in Hcs.
  destruct a as [ax ay az], u as [ux uy uz], v as [vx vy vz].
  unfold Vector.dot, Matrix.apply, Matrix.axis_angle in *.
  cbn [Matrix.m00 Matrix.m01 Matrix.m02 Matrix.m03 Matrix.m10 Matrix.m11
       Matrix.m12 Matrix.m13 Matrix.m20 Matrix.m21 Matrix.m22 Matrix.m23
       Vector.x Vector.y Vector.z] in *.
  generalize dependent (cos angle). generalize dependent (sin angle). intros s c Hcs.
  nsatz.
Qed.

Lemma Identity_apply (v : Vector.t) : Matrix.apply Matrix.Identity v = v.
Proof. apply Vector_ext; unfold Matrix.apply; simpl; ring. Qed.

Lemma Rotation_dot (angle : R) (axis u v : Vector.t) :
  axis <> Vector.mk 0 0 0 ->
  Vector.dot (Matrix.apply (Matrix.Rotation angle axis) u)
             (Matrix.apply (Matrix.Rotation angle axis) v) = Vector.dot u v.
Proof.
  intros Hax. unfold Matrix.Rotation.
  destruct (Req_dec_T (Vector.length axis) 0) as [E|E].
  - now rewrite !Identity_apply.
  - apply axis_angle_dot. now apply normalized_unit.
Qed.

Lemma normalized_nonnull (v : Vector.t) :
  v <> Vector.mk 0 0 0 -> Vector.normalized v <> Vector.mk 0 0 0.
Proof.
  intros Hv E. pose proof (normalized_unit v Hv) as H. rewrite E in H.
  unfold Vector.dot in H. simpl in H. lra.
Qed.

(** The matrix of the alignment preserves dot products, whatever the branch. *)
Lemma align_dot (from_vec to_vec u v : Vector.t) :
  from_vec <> Vector.mk 0 0 0 ->
  Vector.dot (Matrix.apply (get_rotation_matrix_to_align from_vec to_vec) u)
             (Matrix.apply (get_rotation_matrix_to_align from_vec to_vec) v)
  = Vector.dot u v.
Proof.
  intros Hf. pose proof (normalized_unit _ Hf) as Hn.
  unfold get_rotation_matrix_to_align.
  destruct (Rlt_dec _ _) as [Hsmall|Hbig].
  - destruct (Rgt_dec _ _).
    + now rewrite !Identity_apply.
    + apply Rotation_dot, normalized_nonnull, perp_cross_nonnull. exact Hn.
  - apply Rotation_dot, normalized_nonnull. intros E. apply Hbig.
    rewrite E, length_null. lra.
Qed.

(** The matrix of the alignment keeps the orientation: its linear part
    has determinant 1 and commutes with the cross product. *)
Lemma axis_angle_det (angle : R) (a : Vector.t) :
  Vector.dot a a = 1 -> det3 (Matrix.axis_angle angle a) = 1.
Proof.
  intros Ha. pose proof (sin2_cos2 angle) as Hcs. unfold Rsqr in Hcs.
  destruct a as [ax ay az].
  unfold Vector.dot, det3, Matrix.axis_angle in *.
  cbn [Matrix.m00 Matrix.m01 Matrix.m02 Matrix.m10 Matrix.m11 Matrix.m12
       Matrix.m20 Matrix.m21 Matrix.m22 Vector.x Vector.y Vector.z] in *.
  generalize dependent (cos angle). generalize dependent (sin angle). intros s c Hcs.
  nsatz.
Qed.

Lemma axis_angle_cross (angle : R) (a u v : Vector.t) :
  Vector.dot a a = 1 ->
  Matrix.apply (Matrix.axis_angle angle a) (Vector.cross u v)
  = Vector.cross (Matrix.apply (Matrix.axis_angle angle a) u)
                 (Matrix.apply (Matrix.axis_angle angle a) v).
Proof.
  intros Ha. pose proof (sin2_cos2 angle) as Hcs. unfold Rsqr in Hcs.
  destruct a as [ax ay az], u as [ux uy uz], v as [vx vy vz].
  unfold Vector.dot, Matrix.apply, Matrix.axis_angle, Vector.cross in *.
  cbn [Matrix.m00 Matrix.m01 Matrix.m02 Matrix.m03 Matrix.m10 Matrix.m11
       Matrix.m12 Matrix.m13 Matrix.m20 Matrix.m21 Matrix.m22 Matrix.m23
       Vector.x Vector.y Vector.z] in *.
  generalize dependent (cos angle). generalize dependent (sin angle). intros s c Hcs.
  apply Vector_ext; cbn [Vector.x Vector.y Vector.z]; nsatz.
Qed.

Lemma Identity_det : det3 Matrix.Identity = 1.
Proof.
  unfold det3, Matrix.Identity.
  cbn [Matrix.m00 Matrix.m01 Matrix.m02 Matrix.m10 Matrix.m11 Matrix.m12
       Matrix.m20 Matrix.m21 Matrix.m22].
  ring.
Qed.

Lemma Identity_cross (u v : Vector.t) :
  Matrix.apply Matrix.Identity (Vector.cross u v)
  = Vector.cross (Matrix.apply Matrix.Identity u) (Matrix.apply Matrix.Identity v).
Proof. now rewrite !Identity_apply. Qed.

Lemma Rotation_det (angle : R) (axis : Vector.t) :
  axis <> Vector.mk 0 0 0 -> det3 (Matrix.Rotation angle axis) = 1.
Proof.
  intros Hax. unfold Matrix.Rotation.
  destruct (Req_dec_T (Vector.length axis) 0) as [E|E]; [apply Identity_det|].
  apply axis_angle_det. now apply normalized_unit.
Qed.

Lemma Rotation_cross (angle : R) (axis u v : Vector.t) :
  axis <> Vector.mk 0 0 0 ->
  Matrix.apply (Matrix.Rotation angle axis) (Vector.cross u v)
  = Vector.cross (Matrix.apply (Matrix.Rotation angle axis) u)
                 (Matrix.apply (Matrix.Rotation angle axis) v).
Proof.
  intros Hax. unfold Matrix.Rotation.
  destruct (Req_dec_T (Vector.length axis) 0) as [E|E]; [apply Identity_cross|].
  apply axis_angle_cross. now apply normalized_unit.
Qed.

Lemma align_det (from_vec to_vec : Vector.t) :
  from_vec <> Vector.mk 0 0 0 ->
  det3 (get_rotation_matrix_to_align from_vec to_vec) = 1.
Proof.
  intros Hf. pose proof (normalized_unit _ Hf) as Hn.
  unfold get_rotation_matrix_to_align.
  destruct (Rlt_dec _ _) as [Hsmall|Hbig].
  - destruct (Rgt_dec _ _).
    + apply Identity_det.
    + apply Rotation_det, normalized_nonnull, perp_cross_nonnull. exact Hn.
  - apply Rotation_det, normalized_nonnull. intros E. apply Hbig.
    rewrite E, length_null. lra.
Qed.

Lemma align_cross (from_vec to_vec u v : Vector.t) :
  from_vec <> Vector.mk 0 0 0 ->
  Matrix.apply (get_rotation_matrix_to_align from_vec to_vec) (Vector.cross u v)
  = Vector.cross (Matrix.apply (get_rotation_matrix_to_align from_vec to_vec) u)
                 (Matrix.apply (get_rotation_matrix_to_align from_vec to_vec) v).
Proof.
  intros Hf. pose proof (normalized_unit _ Hf) as Hn.
  unfold get_rotation_matrix_to_align.
  destruct (Rlt_dec _ _) as [Hsmall|Hbig].
  - destruct (Rgt_dec _ _).
    + apply Identity_cross.
    + apply Rotation_cross, normalized_nonnull, perp_cross_nonnull. exact Hn.
  - apply Rotation_cross, normalized_nonnull. intros E. apply Hbig.
    rewrite E, length_null. lra.
Qed.

(** A reflection passes the tests of lengths and angles and fails these
    two. *)
Lemma mirror_is_no_rotation :
  let mirror := Matrix.mk 1 0 0 0  0 1 0 0  0 0 (-1) 0  0 0 0 1 in
  (forall u v, Vector.dot (Matrix.apply mirror u) (Matrix.apply mirror v) = Vector.dot u v)
  /\ det3 mirror = -1.
Proof.
  split.
  - intros u v. unfold Vector.dot, Matrix.apply. simpl. ring.
  - unfold det3. simpl. ring.
Qed.

(** ** Matrices that preserve distances *)

Lemma Rotation_sub (angle : R) (axis p q : Vector.t) :
  Matrix.apply (Matrix.Rotation angle axis) (Vector.sub p q)
  = Vector.sub (Matrix.apply (Matrix.Rotation angle axis) p)
               (Matrix.apply (Matrix.Rotation angle axis) q).
Proof.
  unfold Matrix.Rotation. destruct (Req_dec_T (Vector.length axis) 0);
    apply Vector_ext; unfold Matrix.apply, Vector.sub; simpl; ring.
Qed.

Lemma align_sub (from_vec to_vec p q : Vector.t) :
  Matrix.apply (get_rotation_matrix_to_align from_vec to_vec) (Vector.sub p q)
  = Vector.sub (Matrix.apply (get_rotation_matrix_to_align from_vec to_vec) p)
               (Matrix.apply (get_rotation_matrix_to_align from_vec to_vec) q).
Proof.
  unfold get_rotation_matrix_to_align.
  repeat match goal with |- context [if ?c then _ else _] => destruct c end.
  all: try apply Rotation_sub.
  apply Vector_ext; unfold Matrix.apply, Vector.sub; simpl; ring.
Qed.

Lemma align_isometry (from_vec to_vec : Vector.t) :
  from_vec <> Vector.mk 0 0 0 ->
  isometry (get_rotation_matrix_to_align from_vec to_vec).
Proof.
  intros Hf p q. unfold dist, Vector.length.
  rewrite <- align_sub, align_dot by assumption. reflexivity.
Qed.

Lemma Translation_isometry (t : Vector.t) : isometry (Matrix.Translation t).
Proof.
  intros p q. rewrite !Translation_apply. unfold dist. f_equal.
  apply Vector_ext; unfold Vector.sub, Vector.add; simpl; ring.
Qed.

Lemma Identity_isometry : isometry Matrix.Identity.
Proof. intros p q. now rewrite !Identity_apply. Qed.

Lemma matmul_isometry (a b : Matrix.t) :
  isometry a -> Matrix.affine b -> isometry b -> isometry (Matrix.matmul a b).
Proof.
  intros Ha Hb Hib p q. rewrite !apply_matmul by assumption.
  rewrite Ha. apply Hib.
Qed.

Lemma child_matrix_isometry (next_size : R) (M : Matrix.t) (f : Face) :
  isometry M -> isometry (child_matrix next_size M f).
Proof.
  intros HM. unfold child_matrix.
  repeat apply matmul_isometry;
    auto using affine_Translation, affine_align, Translation_isometry,
               align_isometry, base_normal_nonnull.
Qed.

(** ** How close the alignment gets *)

Lemma half_turn_flips (a f : Vector.t) :
  Vector.dot a a = 1 -> Vector.dot a f = 0 ->
  Matrix.apply (Matrix.axis_angle PI a) f = Vector.neg f.
Proof.
  destruct a as [ax ay az], f as [fx fy fz]. unfold Vector.dot. simpl. intros Ha Hp.
  assert (Px : ax * (ax * fx + ay * fy + az * fz) = 0) by (rewrite Hp; ring).
  assert (Py : ay * (ax * fx + ay * fy + az * fz) = 0) by (rewrite Hp; ring).
  assert (Pz : az * (ax * fx + ay * fy + az * fz) = 0) by (rewrite Hp; ring).
  apply Vector_ext; unfold Matrix.apply, Matrix.axis_angle, Vector.neg;
    cbn [Matrix.m00 Matrix.m01 Matrix.m02 Matrix.m03 Matrix.m10 Matrix.m11
         Matrix.m12 Matrix.m13 Matrix.m20 Matrix.m21 Matrix.m22 Matrix.m23
         Vector.x Vector.y Vector.z];
    rewrite ?cos_PI, ?sin_PI; lra.
Qed.

Lemma length_lt (v : Vector.t) (k : R) :
  0 < k -> Vector.dot v v < k * k -> Vector.length v < k.
Proof.
  intros Hk Hv. pose proof (length_sq v) as Hsq. pose proof (length_nonneg v) as Hnn.
  destruct (Rlt_dec (Vector.length v) k) as [H|H]; [assumption|].
  exfalso. nra.
Qed.

Lemma dist_self (p : Vector.t) : dist p p = 0.
Proof.
  unfold dist. replace (Vector.sub p p) with (Vector.mk 0 0 0).
  - apply length_null.
  - apply Vector_ext; unfold Vector.sub; simpl; ring.
Qed.

(** The three branches on unit vectors. *)
Lemma align_unit_accuracy (f t : Vector.t) :
  Vector.dot f f = 1 -> Vector.dot t t = 1 ->
  dist (Matrix.apply (get_rotation_matrix_to_align f t) f) t < 0.00015.
Proof.
  intros Hf Ht.
  destruct (Rlt_dec (Vector.length (Vector.cross f t)) 0.0001) as [Hsmall|Hbig].
  2:{ rewrite align_turns by (assumption || lra). rewrite dist_self. lra. }
  pose proof (cross_sq_unit f t Hf Ht) as Hsq.
  rewrite <- length_sq in Hsq.
  pose proof (length_nonneg (Vector.cross f t)) as Hnn.
  assert (HLL : Vector.length (Vector.cross f t) * Vector.length (Vector.cross f t)
                < 0.0001 * 0.0001) by nra.
  unfold get_rotation_matrix_to_align.
  rewrite (normalized_of_unit f Hf), (normalized_of_unit t Ht).
  destruct (Rlt_dec _ _) as [_|H]; [|contradiction].
  set (d := Vector.dot f t) in *.
  destruct (Rgt_dec d 0) as [Hd|Hd].
  - rewrite Identity_apply. unfold dist. apply length_lt; [lra|].
    replace (Vector.dot (Vector.sub f t) (Vector.sub f t))
      with (Vector.dot f f + Vector.dot t t - 2 * Vector.dot f t)
      by (unfold Vector.dot, Vector.sub; simpl; ring).
    fold d. rewrite Hf, Ht. nra.
  - pose proof (perp_cross_nonnull f Hf) as Hc.
    set (c := Vector.cross f (if Rlt_dec (Rabs (Vector.x f)) 0.9 then _ else _)) in *.
    pose proof (normalized_unit c Hc) as Ha.
    unfold Matrix.Rotation. rewrite (length_unit _ Ha).
    destruct (Req_dec_T 1 0) as [H|_]; [lra|].
    rewrite (normalized_of_unit _ Ha).
    rewrite half_turn_flips;
      [|assumption|apply dot_normalized_left; apply dot_cross_left].
    unfold dist. apply length_lt; [lra|].
    replace (Vector.dot (Vector.sub (Vector.neg f) t) (Vector.sub (Vector.neg f) t))
      with (Vector.dot f f + Vector.dot t t + 2 * Vector.dot f t)
      by (unfold Vector.dot, Vector.sub, Vector.neg; simpl; ring).
    fold d. rewrite Hf, Ht. nra.
Qed.

(** ** The children on all four faces *)

Lemma child_point (next_size : R) (M : Matrix.t) (f : Face) (v : Vector.t) :
  Matrix.apply (child_matrix next_size M f) v
  = Matrix.apply M
      (Vector.add
         (Matrix.apply (get_rotation_matrix_to_align base_normal (face_normal f))
            (Vector.sub v (base_centroid next_size)))
         (face_centroid f)).
Proof.
  unfold child_matrix.
  rewrite !apply_matmul
    by auto using affine_Translation, affine_align, affine_matmul.
  rewrite !Translation_apply. reflexivity.
Qed.

Lemma align_base_face :
  get_rotation_matrix_to_align base_normal (Vector.mk 0 0 1)
  = Matrix.mk (-1) 0 0 0
              0 1 0 0
              0 0 (-1) 0
              0 0 0 1.
Proof.
  assert (Hup : Vector.dot (Vector.mk 0 0 1) (Vector.mk 0 0 1) = 1)
    by (unfold Vector.dot; simpl; ring).
  unfold get_rotation_matrix_to_align.
  rewrite (normalized_of_unit _ base_normal_unit), (normalized_of_unit _ Hup).
  replace (Vector.cross base_normal (Vector.mk 0 0 1)) with (Vector.mk 0 0 0)
    by (apply Vector_ext; unfold Vector.cross, base_normal; simpl; ring).
  rewrite length_null.
  destruct (Rlt_dec 0 0.0001) as [_|H]; [|lra].
  destruct (Rgt_dec _ 0) as [H|_].
  { unfold Vector.dot, base_normal in H. simpl in H. lra. }
  cbn [Vector.x base_normal]. rewrite Rabs_R0.
  destruct (Rlt_dec 0 0.9) as [_|H]; [|lra].
  replace (Vector.cross base_normal (Vector.mk 1 0 0)) with (Vector.mk 0 (-1) 0)
    by (apply Vector_ext; unfold Vector.cross, base_normal; simpl; ring).
  assert (Hax : Vector.dot (Vector.mk 0 (-1) 0) (Vector.mk 0 (-1) 0) = 1)
    by (unfold Vector.dot; simpl; ring).
  rewrite (normalized_of_unit _ Hax).
  unfold Matrix.Rotation. rewrite (length_unit _ Hax).
  destruct (Req_dec_T 1 0) as [H|_]; [lra|].
  rewrite (normalized_of_unit _ Hax).
  apply Matrix_ext; unfold Matrix.axis_angle;
    cbn [Matrix.m00 Matrix.m01 Matrix.m02 Matrix.m03 Matrix.m10 Matrix.m11
         Matrix.m12 Matrix.m13 Matrix.m20 Matrix.m21 Matrix.m22 Matrix.m23
         Matrix.m30 Matrix.m31 Matrix.m32 Matrix.m33 Vector.x Vector.y Vector.z];
    rewrite ?cos_PI, ?sin_PI; lra.
Qed.

Lemma faces_cases (s : R) (f : Face) :
  In f (faces s) -> f = base_face s \/ In f (side_faces s).
Proof.
  intros H. simpl in H. destruct H as [<-|H]; [left; reflexivity|right; exact H].
Qed.

(** On every face the alignment turns [base_normal] onto the normal of
    the face. *)
Lemma align_face_normal (s : R) (f : Face) :
  0 < s -> In f (faces s) ->
  Matrix.apply (get_rotation_matrix_to_align base_normal (face_normal f)) base_normal
  = face_normal f.
Proof.
  intros Hs Hf. destruct (faces_cases s f Hf) as [->|Hside].
  - cbn [face_normal base_face]. rewrite align_base_face.
    apply Vector_ext; unfold Matrix.apply, base_normal; simpl; ring.
  - now apply (align_base_normal s).
Qed.

Lemma face_normal_dot (s : R) (f : Face) :
  0 < s -> In f (faces s) ->
  Vector.dot (face_normal f) (Vector.sub (face_centroid f) (solid_centroid s)) < 0.
Proof.
  intros Hs Hf. destruct (faces_cases s f Hf) as [->|Hside].
  - unfold base_face, face_normal, face_centroid, solid_centroid, v0, v1, v2, v3.
    unfold Vector.dot, Vector.sub, Vector.add, Vector.div. simpl.
    pose proof sqrt6_pos. pose proof sqrt3_pos.
    assert (0 < sqrt 6 * s) by now apply Rmult_lt_0_compat.
    lra.
  - now apply side_normal_dot.
Qed.

Lemma child_apex_all (s next_size : R) (M : Matrix.t) (f : Face) :
  0 < s -> In f (faces s) ->
  Matrix.apply (child_matrix next_size M f) (v3 next_size)
  = Matrix.apply M
      (Vector.add (scaled (- apex_height next_size) (face_normal f)) (face_centroid f)).
Proof.
  intros Hs Hf. rewrite child_point. do 2 f_equal.
  replace (Vector.sub (v3 next_size) (base_centroid next_size))
    with (scaled (- apex_height next_size) base_normal)
    by (apply Vector_ext; unfold scaled, apex_height, base_normal, v3, base_centroid,
          Vector.sub; simpl; ring).
  now rewrite align_scaled, (align_face_normal s f Hs Hf).
Qed.

(** ** Matrices, sizes and numbers of the placements *)

Section MoreEmitted.

Variable nw : R.
Variable sf : R.

Lemma emitted_matrices (P : Matrix.t -> Prop) :
  (forall ns M f, P M -> P (child_matrix ns M f)) ->
  forall (n : nat) s depth M skip, (Z.to_nat depth <= n)%nat -> P M ->
  Forall (fun p => P (placement_matrix p))
    (fractal_tetra_simple nw sf s depth M None skip).
Proof.
  intros Hstep. induction n as [|n IH]; intros s depth M skip Hn HM.
  - rewrite fractal_tetra_simple_stop by lia. constructor.
  - destruct (Rge_dec s nw) as [Hs|Hs].
    2:{ rewrite fractal_tetra_simple_stop by tauto. constructor. }
    destruct (Z_lt_dec 0 depth) as [Hd|Hd].
    2:{ rewrite fractal_tetra_simple_stop by tauto. constructor. }
    rewrite fractal_tetra_simple_emits by assumption. simpl.
    constructor; [exact HM|].
    apply Forall_forall. intros p Hp. apply in_flat_map in Hp.
    destruct Hp as [entry [_ Hp]]. unfold child_call in Hp.
    assert (H := IH (s * sf) (depth - 1)%Z
                   (child_matrix (s * sf) M (snd entry)) true).
    rewrite Forall_forall in H. apply H; [lia|now apply Hstep|assumption].
Qed.

Lemma emitted_sizes (n : nat) :
  forall s depth M skip, (Z.to_nat depth <= n)%nat ->
  Forall (fun p => s * sf ^ Z.to_nat (depth - placement_depth p) >= nw)
    (fractal_tetra_simple nw sf s depth M None skip).
Proof.
  induction n as [|n IH]; intros s depth M skip Hn.
  - rewrite fractal_tetra_simple_stop by lia. constructor.
  - destruct (Rge_dec s nw) as [Hs|Hs].
    2:{ rewrite fractal_tetra_simple_stop by tauto. constructor. }
    destruct (Z_lt_dec 0 depth) as [Hd|Hd].
    2:{ rewrite fractal_tetra_simple_stop by tauto. constructor. }
    rewrite fractal_tetra_simple_emits by assumption. simpl.
    constructor.
    + unfold own_placement, placement_depth. simpl.
      rewrite Z.sub_diag. simpl. lra.
    + apply Forall_forall. intros p Hp. apply in_flat_map in Hp.
      destruct Hp as [entry [_ Hp]]. unfold child_call in Hp.
      pose proof (emitted_placed_under nw sf n (s * sf) (depth - 1)%Z
                    (child_matrix (s * sf) M (snd entry)) true ltac:(lia)) as Hpl.
      assert (H := IH (s * sf) (depth - 1)%Z
                     (child_matrix (s * sf) M (snd entry)) true ltac:(lia)).
      rewrite Forall_forall in H, Hpl.
      specialize (H p Hp). destruct (Hpl p Hp) as [Hrange _].
      replace (Z.to_nat (depth - placement_depth p))
        with (S (Z.to_nat (depth - 1 - placement_depth p))) by lia.
      simpl. rewrite <- Rmult_assoc. exact H.
Qed.

(** With the default [skip_base = False] the first call recurses on all
    four faces. *)
Lemma emitted_full_default (n : nat) (s : R) (M : Matrix.t) :
  (forall k, (k < S n)%nat -> s * sf ^ k >= nw) ->
  List.length (fractal_tetra_simple nw sf s (Z.of_nat (S n)) M None false)
  = S (4 * ternary_nodes n).
Proof.
  intros Hk.
  assert (Hs : s >= nw).
  { specialize (Hk 0%nat). simpl in Hk. rewrite Rmult_1_r in Hk. apply Hk. lia. }
  rewrite fractal_tetra_simple_emits by (assumption || lia).
  cbn [start_list app List.length].
  rewrite (flat_map_length_eq _ _ (ternary_nodes n)).
  - rewrite spawned_false. reflexivity.
  - intros a _. unfold child_call.
    replace (Z.of_nat (S n) - 1)%Z with (Z.of_nat n) by lia.
    apply emitted_full. intros k Hlt. specialize (Hk (S k)). simpl in Hk.
    rewrite Rmult_assoc. apply Hk. lia.
Qed.

(** Once the size of level [k] is below [nozzle_width], no depth makes
    the output larger than the full tree of [k] levels. *)
Lemma emitted_size_cap (k : nat) :
  forall s depth M, s * sf ^ k < nw ->
  (List.length (fractal_tetra_simple nw sf s depth M None true) <= ternary_nodes k)%nat.
Proof.
  induction k as [|k IH]; intros s depth M Hk.
  - simpl in Hk. rewrite fractal_tetra_simple_stop by lra. simpl. lia.
  - destruct (Rge_dec s nw) as [Hs|Hs].
    2:{ rewrite fractal_tetra_simple_stop by tauto. simpl. lia. }
    destruct (Z_lt_dec 0 depth) as [Hd|Hd].
    2:{ rewrite fractal_tetra_simple_stop by tauto. simpl. lia. }
    rewrite fractal_tetra_simple_emits by assumption.
    cbn [start_list app List.length ternary_nodes].
    pose proof (flat_map_length_le (child_call nw sf s depth M) (spawned true s)
                  (ternary_nodes k)) as H.
    rewrite spawned_true in *. cbn [List.length side_faces faces tl enumerate_from] in H.
    cbn [side_faces faces tl enumerate_from].
    assert (H0 : forall a, (List.length (child_call nw sf s depth M a) <= ternary_nodes k)%nat).
    { intros a. unfold child_call. apply IH. simpl in Hk. rewrite Rmult_assoc. exact Hk. }
    specialize (H (fun a _ => H0 a)). lia.
Qed.

End MoreEmitted.

(** ** The loop that creates the objects *)

Lemma nat_of_str_of_nat (n : nat) : nat_of_str (str_of_nat n) = n.
Proof.
  unfold nat_of_str, str_of_nat.
  destruct (Nat.to_uint n) as [| | | | | | | | | |] eqn:E.
  1:{ rewrite NilZero.usu_nil. rewrite <- (Unsigned.of_to n), E. reflexivity. }
  all: rewrite NilZero.usu by discriminate.
  all: rewrite <- E; apply Unsigned.of_to.
Qed.

Lemma str_of_nat_inj (n m : nat) : str_of_nat n = str_of_nat m -> n = m.
Proof.
  intros H. rewrite <- (nat_of_str_of_nat n), <- (nat_of_str_of_nat m). now rewrite H.
Qed.

Lemma make_object_some (rd : Z) (entry : nat * Placement) :
  rd <> 0%Z -> make_object rd entry = Some (object_of rd entry).
Proof.
  intros Hrd. destruct entry as [i [[mesh matrix] depth]].
  unfold make_object, int_truediv.
  destruct (rd =? 0)%Z eqn:E; [lia|]. reflexivity.
Qed.

Lemma make_object_none (i : nat) (p : Placement) : make_object 0 (i, p) = None.
Proof. destruct p as [[mesh matrix] depth]. reflexivity. Qed.

Lemma link_fold (rd : Z) (entries : list (nat * Placement)) :
  rd <> 0%Z -> forall objs,
  fold_left (link_step rd) entries (Some objs)
  = Some (objs ++ map (object_of rd) entries).
Proof.
  intros Hrd. induction entries as [|e entries IH]; intros objs; simpl.
  - now rewrite app_nil_r.
  - rewrite make_object_some by assumption. rewrite IH, <- app_assoc. reflexivity.
Qed.

Lemma make_objects_some (rd : Z) (l : list Placement) :
  rd <> 0%Z -> make_objects rd l = Some (map (object_of rd) (enumerate l)).
Proof. intros Hrd. unfold make_objects. now rewrite link_fold. Qed.

Lemma enumerate_from_fst {A : Type} (l : list A) :
  forall k, map fst (enumerate_from k l) = seq k (List.length l).
Proof.
  induction l as [|a l IH]; intros k; simpl; [reflexivity|]. now rewrite IH.
Qed.

Lemma enumerate_from_snd {A : Type} (l : list A) :
  forall k, map snd (enumerate_from k l) = l.
Proof.
  induction l as [|a l IH]; intros k; simpl; [reflexivity|]. now rewrite IH.
Qed.

(** The script's output list is empty unless [recursion_depth > 0]. *)
Lemma script_placements_nonpositive (nw sf size : R) (rd : Z) :
  (rd <= 0)%Z ->
  fractal_tetra_simple nw sf size rd Matrix.Identity None true = [].
Proof. intros H. apply fractal_tetra_simple_stop. lia. Qed.

Lemma script_some (nw sf size : R) (rd : Z) :
  script nw sf size rd
  = Some (map (object_of rd)
            (enumerate (fractal_tetra_simple nw sf size rd Matrix.Identity None true))).
Proof.
  unfold script. destruct (Z_le_dec rd 0) as [H|H].
  - rewrite script_placements_nonpositive by assumption. reflexivity.
  - apply make_objects_some. lia.
Qed.

Lemma depth_ratio (d rd : Z) :
  (1 <= d <= rd)%Z -> 0 < IZR d / IZR rd <= 1.
Proof.
  intros [H1 H2].
  assert (Hd : 0 < IZR d) by (apply IZR_lt; lia).
  assert (Hrd : 0 < IZR rd) by (apply IZR_lt; lia).
  assert (Hle : IZR d <= IZR rd) by (apply IZR_le; lia).
  split.
  - now apply Rdiv_lt_0_compat.
  - apply (Rmult_le_reg_r (IZR rd)); [assumption|].
    unfold Rdiv. rewrite Rmult_assoc, Rinv_l by lra. lra.
Qed.

(** * Further properties of the code *)

(** ** [get_rotation_matrix_to_align] *)

(** X1.  For vectors [from_vec] and [to_vec] other than the null vector
    whose directions are neither parallel nor anti-parallel up to the
    threshold, the matrix turns the direction of [from_vec] exactly onto
    the direction of [to_vec]. *)
Theorem X1_align_turns_from_onto_to (from_vec to_vec : Vector.t) :
  from_vec <> Vector.mk 0 0 0 -> to_vec <> Vector.mk 0 0 0 ->
  0.0001 <= Vector.length
              (Vector.cross (Vector.normalized from_vec) (Vector.normalized to_vec)) ->
  Matrix.apply (get_rotation_matrix_to_align from_vec to_vec)
    (Vector.normalized from_vec)
  = Vector.normalized to_vec.
Proof.
  intros Hf Ht Hlen. rewrite align_normalized.
  apply align_turns; auto using normalized_unit.
Qed.

Lemma X1_witness :
  Matrix.apply (get_rotation_matrix_to_align base_normal (Vector.mk 1 0 0))
    (Vector.normalized base_normal)
  = Vector.normalized (Vector.mk 1 0 0).
Proof.
  assert (Hx : Vector.dot (Vector.mk 1 0 0) (Vector.mk 1 0 0) = 1)
    by (unfold Vector.dot; simpl; ring).
  assert (Hxn : Vector.mk 1 0 0 <> Vector.mk 0 0 0).
  { intros E. rewrite E in Hx. unfold Vector.dot in Hx. simpl in Hx. lra. }
  apply (X1_align_turns_from_onto_to base_normal (Vector.mk 1 0 0)).
  - exact base_normal_nonnull.
  - exact Hxn.
  - rewrite (normalized_of_unit _ base_normal_unit), (normalized_of_unit _ Hx).
    replace (Vector.cross base_normal (Vector.mk 1 0 0)) with (Vector.mk 0 (-1) 0)
      by (apply Vector_ext; unfold Vector.cross, base_normal; simpl; ring).
    rewrite (length_of_square _ 1); [lra|lra|].
    unfold Vector.dot. simpl. ring.
Defined.

(** X2.  Whatever branch is taken, for vectors other than the null
    vector the matrix sends the direction of [from_vec] to within 0.00015
    of the direction of [to_vec]. *)
Theorem X2_align_accuracy (from_vec to_vec : Vector.t) :
  from_vec <> Vector.mk 0 0 0 -> to_vec <> Vector.mk 0 0 0 ->
  dist (Matrix.apply (get_rotation_matrix_to_align from_vec to_vec)
          (Vector.normalized from_vec))
       (Vector.normalized to_vec) < 0.00015.
Proof.
  intros Hf Ht. rewrite align_normalized.
  apply align_unit_accuracy; auto using normalized_unit.
Qed.

Lemma X2_witness :
  dist (Matrix.apply (get_rotation_matrix_to_align base_normal (Vector.neg base_normal))
          (Vector.normalized base_normal))
       (Vector.normalized (Vector.neg base_normal)) < 0.00015.
Proof.
  apply (X2_align_accuracy base_normal (Vector.neg base_normal)).
  - exact base_normal_nonnull.
  - intros E. apply base_normal_nonnull.
    apply Vector_ext; simpl;
      [ assert (H := f_equal Vector.x E) | assert (H := f_equal Vector.y E)
      | assert (H := f_equal Vector.z E) ]; simpl in H; lra.
Defined.

(** X3.  For [from_vec] other than the null vector the matrix is a
    rotation about the origin: it fixes the origin, preserves dot products
    and distances, and keeps the orientation (its linear part has
    determinant 1 and commutes with the cross product), which a
    reflection does not. *)
Theorem X3_align_is_a_rotation (from_vec to_vec : Vector.t) :
  from_vec <> Vector.mk 0 0 0 ->
  Matrix.affine (get_rotation_matrix_to_align from_vec to_vec) /\
  Matrix.apply (get_rotation_matrix_to_align from_vec to_vec) (Vector.mk 0 0 0)
  = Vector.mk 0 0 0 /\
  (forall u v,
     Vector.dot (Matrix.apply (get_rotation_matrix_to_align from_vec to_vec) u)
                (Matrix.apply (get_rotation_matrix_to_align from_vec to_vec) v)
     = Vector.dot u v) /\
  (forall p q,
     dist (Matrix.apply (get_rotation_matrix_to_align from_vec to_vec) p)
          (Matrix.apply (get_rotation_matrix_to_align from_vec to_vec) q)
     = dist p q) /\
  det3 (get_rotation_matrix_to_align from_vec to_vec) = 1 /\
  (forall u v,
     Matrix.apply (get_rotation_matrix_to_align from_vec to_vec) (Vector.cross u v)
     = Vector.cross (Matrix.apply (get_rotation_matrix_to_align from_vec to_vec) u)
                    (Matrix.apply (get_rotation_matrix_to_align from_vec to_vec) v)).
Proof.
  intros Hf. split; [apply affine_align|]. split; [apply align_origin|]. split.
  - intros u v. now apply align_dot.
  - split; [now apply align_isometry|]. split.
    + now apply align_det.
    + intros u v. now apply align_cross.
Qed.

Lemma X3_witness :
  base_normal <> Vector.mk 0 0 0 /\
  det3 (get_rotation_matrix_to_align base_normal (Vector.mk 1 0 0)) = 1.
Proof.
  split; [exact base_normal_nonnull|].
  apply (X3_align_is_a_rotation base_normal (Vector.mk 1 0 0)).
  exact base_normal_nonnull.
Defined.

(** X4.  Aligning a vector other than the null vector with its opposite
    turns its direction exactly onto the opposite direction. *)
Theorem X4_align_opposite_flips (v : Vector.t) :
  v <> Vector.mk 0 0 0 ->
  Matrix.apply (get_rotation_matrix_to_align v (Vector.neg v)) (Vector.normalized v)
  = Vector.normalized (Vector.neg v).
Proof.
  intros Hv. destruct (align_opposite v Hv) as (a & Ha & Hperp & Heq).
  rewrite Heq, normalized_neg. now apply half_turn_flips.
Qed.

Lemma X4_witness :
  Matrix.apply (get_rotation_matrix_to_align base_normal (Vector.neg base_normal))
    (Vector.normalized base_normal)
  = Vector.normalized (Vector.neg base_normal).
Proof.
  apply (X4_align_opposite_flips base_normal). exact base_normal_nonnull.
Defined.

(** ** [fractal_tetra_simple] *)

(** X5.  Started on a matrix that preserves distances, a call emits only
    placements whose matrix preserves distances: every tetrahedron is
    placed by a rigid motion, without scaling or shear. *)
Theorem X5_placements_are_rigid
    (nw sf s : R) (depth : Z) (M : Matrix.t) (skip : bool) (p : Placement) :
  isometry M ->
  In p (fractal_tetra_simple nw sf s depth M None skip) ->
  isometry (placement_matrix p).
Proof.
  intros HM Hp.
  pose proof (emitted_matrices nw sf isometry
                (fun ns M' f H => child_matrix_isometry ns M' f H)
                (Z.to_nat depth) s depth M skip (Nat.le_refl _) HM) as H.
  rewrite Forall_forall in H. now apply H.
Qed.

Lemma script_root_placed :
  In (create_tetra size, Matrix.Identity, recursion_depth) all_meshes.
Proof.
  unfold all_meshes. rewrite fractal_tetra_simple_emits.
  - simpl. left. reflexivity.
  - unfold size, nozzle_width. lra.
  - unfold recursion_depth. lia.
Qed.

Lemma X5_witness :
  isometry (placement_matrix (create_tetra size, Matrix.Identity, recursion_depth)).
Proof.
  apply (X5_placements_are_rigid nozzle_width scale_factor size recursion_depth
           Matrix.Identity true).
  - exact Identity_isometry.
  - exact script_root_placed.
Defined.

(** X6.  No primitive below the nozzle width is emitted: a placement of
    depth [d] under a call at size [s] and depth [depth] holds the
    tetrahedron of edge [s * scale_factor ^ (depth - d)], and that edge is
    at least [nozzle_width]. *)
Theorem X6_no_primitive_below_nozzle_width
    (nw sf s : R) (depth : Z) (M : Matrix.t) (skip : bool) (p : Placement) :
  In p (fractal_tetra_simple nw sf s depth M None skip) ->
  placement_mesh p = create_tetra (s * sf ^ Z.to_nat (depth - placement_depth p)) /\
  s * sf ^ Z.to_nat (depth - placement_depth p) >= nw.
Proof.
  intros Hp.
  pose proof (emitted_placed_under nw sf (Z.to_nat depth) s depth M skip
                (Nat.le_refl _)) as H1.
  pose proof (emitted_sizes nw sf (Z.to_nat depth) s depth M skip (Nat.le_refl _)) as H2.
  rewrite Forall_forall in H1, H2. split; [apply H1|apply H2]; assumption.
Qed.

Lemma X6_witness :
  size * scale_factor
         ^ Z.to_nat (recursion_depth
                     - placement_depth (create_tetra size, Matrix.Identity, recursion_depth))
  >= nozzle_width.
Proof.
  apply (X6_no_primitive_below_nozzle_width nozzle_width scale_factor size
           recursion_depth Matrix.Identity true
           (create_tetra size, Matrix.Identity, recursion_depth)).
  exact script_root_placed.
Defined.

(** X7.  Called with the default [skip_base = False], a call whose sizes
    reach the nozzle width on all [n + 1] levels recurses on all four
    faces, the base included: it emits [1 + 4 * (1 + 3 + ... + 3^(n-1))]
    placements. *)
Theorem X7_default_call_spawns_on_four_faces
    (nw sf s : R) (n : nat) (M : Matrix.t) :
  (forall k, (k < S n)%nat -> s * sf ^ k >= nw) ->
  List.length (fractal_tetra_simple nw sf s (Z.of_nat (S n)) M None false)
  = S (4 * ternary_nodes n).
Proof. apply emitted_full_default. Qed.

Lemma X7_witness :
  List.length (fractal_tetra_simple nozzle_width scale_factor size 4 Matrix.Identity
                 None false) = 53%nat.
Proof.
  apply (X7_default_call_spawns_on_four_faces nozzle_width scale_factor size 3
           Matrix.Identity).
  exact script_sizes.
Defined.

(** X8.  The size test alone bounds the output: once
    [s * scale_factor ^ k < nozzle_width], no depth, however large, makes
    a call with the base skipped emit more than the full ternary tree of
    [k] levels. *)
Theorem X8_size_test_caps_the_output
    (nw sf s : R) (k : nat) (depth : Z) (M : Matrix.t) :
  s * sf ^ k < nw ->
  (List.length (fractal_tetra_simple nw sf s depth M None true) <= ternary_nodes k)%nat.
Proof. apply emitted_size_cap. Qed.

Lemma X8_witness :
  (List.length (fractal_tetra_simple nozzle_width scale_factor size 1000 Matrix.Identity
                  None true) <= 1093)%nat.
Proof.
  apply (X8_size_test_caps_the_output nozzle_width scale_factor size 7 1000
           Matrix.Identity).
  unfold size, scale_factor, nozzle_width. simpl. lra.
Defined.

(** ** The placement of a child *)

(** X9.  The matrix of a child is the matrix of its parent composed
    with the placement of the child in the frame of the parent. *)
Theorem X9_child_matrix_composes
    (next_size : R) (M : Matrix.t) (f : Face) (v : Vector.t) :
  Matrix.apply (child_matrix next_size M f) v
  = Matrix.apply M (Matrix.apply (child_matrix next_size Matrix.Identity f) v).
Proof.
  rewrite (child_point next_size M), (child_point next_size Matrix.Identity).
  now rewrite Identity_apply.
Qed.

(** X10.  On each of the four faces of a tetrahedron of size [s > 0], a
    child of size [next_size > 0] grows away from the parent: seen from
    the centroid of the face, the apex of the child lies in the direction
    that leads away from the centroid of the parent. *)
Theorem X10_children_grow_outward (s next_size : R) (f : Face) :
  0 < s -> 0 < next_size -> In f (faces s) ->
  0 < Vector.dot
        (Vector.sub
           (Matrix.apply (child_matrix next_size Matrix.Identity f) (v3 next_size))
           (face_centroid f))
        (Vector.sub (face_centroid f) (solid_centroid s)).
Proof.
  intros Hs Hn Hf. rewrite (child_apex_all s next_size _ f Hs Hf), Identity_apply.
  pose proof (face_normal_dot s f Hs Hf) as Hdot.
  set (w := Vector.sub (face_centroid f) (solid_centroid s)) in *.
  replace (Vector.dot
             (Vector.sub
                (Vector.add (scaled (- apex_height next_size) (face_normal f))
                   (face_centroid f))
                (face_centroid f)) w)
    with (- apex_height next_size * Vector.dot (face_normal f) w)
    by (unfold Vector.dot, Vector.sub, Vector.add, scaled; simpl; ring).
  assert (0 < apex_height next_size).
  { unfold apex_height. pose proof sqrt6_pos. apply Rmult_lt_0_compat; lra. }
  nra.
Qed.

Lemma X10_witness :
  0 < Vector.dot
        (Vector.sub
           (Matrix.apply (child_matrix 15 Matrix.Identity (base_face 30)) (v3 15))
           (face_centroid (base_face 30)))
        (Vector.sub (face_centroid (base_face 30)) (solid_centroid 30)).
Proof.
  apply (X10_children_grow_outward 30 15 (base_face 30)); [lra|lra|].
  simpl. left. reflexivity.
Defined.

(** X11.  On each of the four faces, the base of the child is flush with
    the face: its three base vertices are sent into the plane of the
    face. *)
Theorem X11_child_base_flush_with_face (s next_size : R) (f : Face) (w : Vector.t) :
  0 < s -> In f (faces s) ->
  In w [v0 next_size; v1 next_size; v2 next_size] ->
  Vector.dot
    (Vector.sub (Matrix.apply (child_matrix next_size Matrix.Identity f) w)
       (face_centroid f))
    (face_normal f) = 0.
Proof.
  intros Hs Hf Hw. rewrite child_point, Identity_apply.
  set (R := get_rotation_matrix_to_align base_normal (face_normal f)).
  set (u := Vector.sub w (base_centroid next_size)).
  replace (Vector.sub (Vector.add (Matrix.apply R u) (face_centroid f)) (face_centroid f))
    with (Matrix.apply R u)
    by (apply Vector_ext; unfold Vector.sub, Vector.add; simpl; ring).
  rewrite <- (align_face_normal s f Hs Hf). fold R.
  unfold R. rewrite align_dot by exact base_normal_nonnull.
  unfold u. simpl in Hw. destruct Hw as [<-|[<-|[<-|[]]]];
    unfold Vector.dot, Vector.sub, base_normal, base_centroid, v0, v1, v2; simpl; ring.
Qed.

Lemma X11_witness :
  Vector.dot
    (Vector.sub (Matrix.apply (child_matrix 15 Matrix.Identity front_face_30) (v1 15))
       (face_centroid front_face_30))
    (face_normal front_face_30) = 0.
Proof.
  apply (X11_child_base_flush_with_face 30 15 front_face_30 (v1 15)); [lra| |].
  - simpl. right. left. reflexivity.
  - simpl. right. left. reflexivity.
Defined.

(** ** The tetrahedron *)

(** X12.  The point [base_centroid] the loop recentres a child on is the
    centroid of the face "base" of a tetrahedron of that size, and the
    apex [v3] stands straight above it, at height [sqrt 6 / 3 * s]. *)
Theorem X12_base_centroid_is_centroid_of_base (s : R) :
  nth_error (faces s) 0 = Some (base_face s) /\
  face_centroid (base_face s) = base_centroid s /\
  nth_error (mesh_verts (create_tetra s)) 3
  = Some (Vector.add (base_centroid s) (Vector.mk 0 0 (sqrt 6 / 3 * s))).
Proof.
  split; [reflexivity|]. split.
  - apply Vector_ext;
      unfold base_face, face_centroid, base_centroid, v0, v1, v2,
             Vector.add, Vector.div; simpl; field.
  - simpl. f_equal.
    apply Vector_ext; unfold base_centroid, Vector.add; simpl; ring.
Qed.

(** X13.  [create_tetra] is self-similar: the vertices at edge length
    [k * s] are the vertices at edge length [s] scaled by [k], with the
    same faces. *)
Theorem X13_create_tetra_scales (k s : R) :
  mesh_verts (create_tetra (k * s)) = map (scaled k) (mesh_verts (create_tetra s)) /\
  mesh_faces (create_tetra (k * s)) = mesh_faces (create_tetra s).
Proof.
  split; [|reflexivity].
  simpl.
  repeat (apply (f_equal2 (@cons Vector.t));
          [apply Vector_ext; unfold scaled; simpl; field|]).
  reflexivity.
Qed.

(** ** The objects the script creates *)

(** X14.  The script never divides by zero.  The division by
    [recursion_depth] fails on any placement when [recursion_depth = 0],
    but for every choice of the parameters the loop that creates the
    objects runs to its end, with one object per placement. *)
Theorem X14_script_never_divides_by_zero (nw sf base : R) (rd : Z) :
  (forall i p, make_object 0 (i, p) = None) /\
  exists objs,
    script nw sf base rd = Some objs /\
    List.length objs
    = List.length (fractal_tetra_simple nw sf base rd Matrix.Identity None true).
Proof.
  split; [apply make_object_none|].
  eexists. split; [apply script_some|].
  unfold enumerate. rewrite length_map.
  rewrite <- (enumerate_from_snd
                (fractal_tetra_simple nw sf base rd Matrix.Identity None true) 0) at 2.
  now rewrite length_map.
Qed.

Lemma nth_error_enumerate_from {A : Type} (l : list A) :
  forall k i e, nth_error (enumerate_from k l) i = Some e ->
  fst e = (k + i)%nat /\ nth_error l i = Some (snd e).
Proof.
  induction l as [|a l IH]; intros k i e H.
  - destruct i; discriminate.
  - destruct i as [|i]; simpl in H.
    + injection H as <-. simpl. split; [lia|reflexivity].
    + apply IH in H. destruct H as [H1 H2]. split; [lia|exact H2].
Qed.

(** X15.  The [i]-th object carries the mesh and the matrix of the
    [i]-th placement and is named [Tetra_i]; its one material has the
    colour [(r, 0, 1 - r, 1)] with [r = depth / recursion_depth], where
    [0 < r <= 1], and alpha 0.5. *)
Theorem X15_object_of_each_placement
    (nw sf base : R) (rd : Z) (objs : list Object) (i : nat) (o : Object) :
  script nw sf base rd = Some objs ->
  nth_error objs i = Some o ->
  exists p r,
    nth_error (fractal_tetra_simple nw sf base rd Matrix.Identity None true) i = Some p /\
    object_name o = ("Tetra_" ++ str_of_nat i)%string /\
    object_data o = placement_mesh p /\
    matrix_world o = placement_matrix p /\
    r = IZR (placement_depth p) / IZR rd /\ 0 < r <= 1 /\
    exists m, materials o = [m] /\ base_color m = (r, 0, 1 - r, 1) /\ alpha m = 0.5.
Proof.
  intros Hs Ho. rewrite script_some in Hs. injection Hs as <-.
  rewrite nth_error_map in Ho.
  destruct (nth_error (enumerate _) i) as [e|] eqn:E; [|discriminate].
  injection Ho as <-.
  apply nth_error_enumerate_from in E. destruct E as [Hi Hp]. simpl in Hi.
  exists (snd e), (IZR (placement_depth (snd e)) / IZR rd).
  split; [exact Hp|]. split; [unfold object_of; simpl; now rewrite Hi|].
  split; [reflexivity|]. split; [reflexivity|]. split; [reflexivity|]. split.
  - apply depth_ratio. apply nth_error_In in Hp.
    pose proof (emitted_placed_under nw sf (Z.to_nat rd) base rd Matrix.Identity true
                  (Nat.le_refl _)) as H.
    rewrite Forall_forall in H. now destruct (H _ Hp).
  - eexists. split; [reflexivity|]. split; reflexivity.
Qed.

Lemma script_first_object (nw sf base : R) (rd : Z) :
  base >= nw -> (0 < rd)%Z ->
  exists rest,
    script nw sf base rd
    = Some (object_of rd (0%nat, (create_tetra base, Matrix.Identity, rd)) :: rest).
Proof.
  intros Hs Hd. rewrite script_some.
  rewrite fractal_tetra_simple_emits by assumption.
  cbn [start_list app enumerate enumerate_from map]. eexists. reflexivity.
Qed.

Lemma X15_witness :
  exists o, object_name o = "Tetra_0"%string /\ matrix_world o = Matrix.Identity.
Proof.
  destruct (script_first_object nozzle_width scale_factor size recursion_depth)
    as [rest Hs].
  { unfold size, nozzle_width. lra. }
  { unfold recursion_depth. lia. }
  destruct (X15_object_of_each_placement nozzle_width scale_factor size recursion_depth
              _ 0 _ Hs eq_refl) as (p & r & Hp & Hname & _ & Hm & _).
  eexists. split; [exact Hname|].
  rewrite Hm.
  rewrite fractal_tetra_simple_emits in Hp
    by (unfold size, nozzle_width, recursion_depth; lra || lia).
  simpl in Hp. injection Hp as <-. reflexivity.
Defined.

(** X16.  When the first call passes its test, the first object is the
    root: the tetrahedron of the base size under the identity matrix,
    coloured pure red [(1, 0, 0, 1)]. *)
Theorem X16_root_object_is_red (nw sf base : R) (rd : Z) :
  base >= nw -> (0 < rd)%Z ->
  exists o rest m,
    script nw sf base rd = Some (o :: rest) /\
    object_data o = create_tetra base /\
    matrix_world o = Matrix.Identity /\
    materials o = [m] /\ base_color m = (1, 0, 0, 1).
Proof.
  intros Hs Hd. destruct (script_first_object nw sf base rd Hs Hd) as [rest H].
  eexists _, rest, _. split; [exact H|].
  split; [reflexivity|]. split; [reflexivity|]. split; [reflexivity|].
  cbn [object_of base_color placement_depth snd].
  assert (Hrd : IZR rd <> 0) by (apply not_0_IZR; lia).
  replace (IZR rd / IZR rd) with 1 by (field; assumption).
  replace (1 - 1) with 0 by ring. reflexivity.
Qed.

Lemma X16_witness :
  exists o rest m,
    script nozzle_width scale_factor size recursion_depth = Some (o :: rest) /\
    object_data o = create_tetra size /\
    matrix_world o = Matrix.Identity /\
    materials o = [m] /\ base_color m = (1, 0, 0, 1).
Proof.
  apply (X16_root_object_is_red nozzle_width scale_factor size recursion_depth).
  - unfold size, nozzle_width. lra.
  - unfold recursion_depth. lia.
Defined.

Lemma tetra_name_inj : Injective (fun i : nat => ("Tetra_" ++ str_of_nat i)%string).
Proof.
  intros i j H. simpl in H. injection H as H. now apply str_of_nat_inj.
Qed.

(** X17.  The objects are named [Tetra_0], [Tetra_1], ... in the order of
    the placements, and no two objects share a name. *)
Theorem X17_object_names_distinct (nw sf base : R) (rd : Z) (objs : list Object) :
  script nw sf base rd = Some objs ->
  map object_name objs
  = map (fun i : nat => ("Tetra_" ++ str_of_nat i)%string) (seq 0 (List.length objs)) /\
  NoDup (map object_name objs).
Proof.
  intros Hs. rewrite script_some in Hs. injection Hs as <-.
  set (l := fractal_tetra_simple nw sf base rd Matrix.Identity None true).
  assert (Hnames :
    map object_name (map (object_of rd) (enumerate l))
    = map (fun i : nat => ("Tetra_" ++ str_of_nat i)%string) (seq 0 (List.length l))).
  { unfold enumerate. rewrite <- (enumerate_from_fst l 0), !map_map. reflexivity. }
  assert (Hlen : List.length (map (object_of rd) (enumerate l)) = List.length l).
  { unfold enumerate. rewrite length_map.
    rewrite <- (enumerate_from_snd l 0) at 2. now rewrite length_map. }
  rewrite Hlen. split; [exact Hnames|].
  rewrite Hnames. apply Injective_map_NoDup; [exact tetra_name_inj|apply seq_NoDup].
Qed.

Lemma X17_witness :
  exists objs,
    script nozzle_width scale_factor size recursion_depth = Some objs /\
    NoDup (map object_name objs).
Proof.
  eexists. split; [apply script_some|].
  apply (X17_object_names_distinct nozzle_width scale_factor size recursion_depth).
  apply script_some.
Defined.
